(** * mcp-commit-helper: a shallow embedding of the commit tools

    The development follows the TypeScript sources: the string helpers of
    the JavaScript runtime the code relies on, a small backtracking matcher
    for the one regular expression of [utils.ts], the header validator, the
    diff aggregator, the project context and the tool handlers.  Calls to
    the file system and to git go through an explicit collaborator whose
    invocations are logged. *)

From Stdlib Require Import List Arith NArith Bool Ascii String Lia.
Import ListNotations.

Local Open Scope N_scope.
Local Open Scope list_scope.

(* ================================================================== *)
(** * JavaScript strings *)
(* ================================================================== *)

Module JS.

(** A JavaScript string is a sequence of UTF-16 code units. *)
Definition str := list N.

(** Source literals are ASCII; [lit] gives their code units. *)
Definition lit (s : string) : str :=
  map N_of_ascii (list_ascii_of_string s).

Definition TAB : N := 9.
Definition NL : N := 10.
Definition CR : N := 13.
Definition SPACE : N := 32.
Definition DQUOTE : N := 34.
Definition BACKSLASH : N := 92.

Definition in_range (lo hi c : N) : bool := (lo <=? c) && (c <=? hi).

(** WhiteSpace and LineTerminator of ECMAScript: what [String.prototype.trim]
    strips and what [\s] matches. *)
Definition is_white_space (c : N) : bool :=
  in_range 9 13 c || (c =? 32) || (c =? 160) || (c =? 5760)
  || in_range 8192 8202 c || (c =? 8232) || (c =? 8233) || (c =? 8239)
  || (c =? 8287) || (c =? 12288) || (c =? 65279).

(** LineTerminator: the characters [.] does not match. *)
Definition is_line_terminator (c : N) : bool :=
  (c =? 10) || (c =? 13) || (c =? 8232) || (c =? 8233).

(** [\w] without the unicode and ignoreCase flags: [A-Za-z0-9_]. *)
Definition is_word_char (c : N) : bool :=
  in_range 48 57 c || in_range 65 90 c || (c =? 95) || in_range 97 122 c.

Fixpoint str_eqb (a b : str) : bool :=
  match a, b with
  | [], [] => true
  | x :: a', y :: b' => (x =? y) && str_eqb a' b'
  | _, _ => false
  end.

(** Truthiness of a string: non-empty. *)
Definition truthy (s : str) : bool :=
  match s with [] => false | _ :: _ => true end.

Fixpoint trimStart (s : str) : str :=
  match s with
  | c :: s' => if is_white_space c then trimStart s' else s
  | [] => []
  end.

Fixpoint trimEnd (s : str) : str :=
  match s with
  | [] => []
  | c :: s' =>
      match trimEnd s' with
      | [] => if is_white_space c then [] else [c]
      | t => c :: t
      end
  end.

Definition trim (s : str) : str := trimEnd (trimStart s).

(** [s.split("\n")]: never empty, [""] for the empty string. *)
Fixpoint split_nl (s : str) : list str :=
  match s with
  | [] => [[]]
  | c :: s' =>
      if c =? NL then [] :: split_nl s'
      else match split_nl s' with
           | l :: ls => (c :: l) :: ls
           | [] => [[c]]
           end
  end.

(** [a.join(sep)]. *)
Fixpoint join (sep : str) (parts : list str) : str :=
  match parts with
  | [] => []
  | [p] => p
  | p :: ps => p ++ sep ++ join sep ps
  end.

(** [s.startsWith(prefix)]. *)
Fixpoint startsWith (prefix s : str) : bool :=
  match prefix, s with
  | [], _ => true
  | p :: prefix', c :: s' => (p =? c) && startsWith prefix' s'
  | _ :: _, [] => false
  end.

(** [s.includes(needle)]. *)
Fixpoint includes (needle s : str) : bool :=
  startsWith needle s ||
  match s with
  | [] => false
  | _ :: s' => includes needle s'
  end.

(** [arr.includes(x)] on an array of strings. *)
Definition array_includes (arr : list str) (x : str) : bool :=
  existsb (str_eqb x) arr.

(** Values and objects, as far as the code builds them. *)
Inductive value :=
| VBool (b : bool)
| VString (s : str).

Definition object := list (string * value).

Fixpoint prop (k : string) (o : object) : option value :=
  match o with
  | [] => None
  | (k', v) :: o' => if String.eqb k k' then Some v else prop k o'
  end.

End JS.
Import JS.

(* ================================================================== *)
(** * Regular expressions *)
(* ================================================================== *)

Module Regex.

(** The fragment [CONVENTIONAL_COMMIT_HEADER_REGEX] is written in: literal
    characters, character classes, [X+] over a class, sequencing, [(?:r)?],
    capture groups and the end anchor. *)
Inductive regex :=
| Chr (c : N)
| Class (p : N -> bool)
| Plus (p : N -> bool)
| Seq (r1 r2 : regex)
| Opt (r : regex)
| Group (i : nat) (r : regex)
| Eos.

Definition captures := list (nat * str).

Fixpoint group (i : nat) (caps : captures) : option str :=
  match caps with
  | [] => None
  | (j, v) :: caps' => if Nat.eqb i j then Some v else group i caps'
  end.

(** The part of [s] consumed when the remaining input is [s']. *)
Definition consumed (s s' : str) : str :=
  firstn (List.length s - List.length s') s.

(** Greedy [X+]: take as many characters as possible, give them back one at
    a time while the continuation fails. *)
Fixpoint plus_loop {R} (p : N -> bool) (s : str) (k : str -> option R)
  : option R :=
  match s with
  | c :: s' =>
      if p c then
        match plus_loop p s' k with
        | Some r => Some r
        | None => k s'
        end
      else None
  | [] => None
  end.

(** Backtracking matcher in continuation-passing style: alternatives are
    tried in the priority order of the ECMAScript semantics. *)
Fixpoint rmatch (r : regex) (s : str) (caps : captures)
         (k : str -> captures -> option captures) : option captures :=
  match r with
  | Chr c =>
      match s with
      | x :: s' => if x =? c then k s' caps else None
      | [] => None
      end
  | Class p =>
      match s with
      | x :: s' => if p x then k s' caps else None
      | [] => None
      end
  | Plus p => plus_loop p s (fun s' => k s' caps)
  | Seq r1 r2 => rmatch r1 s caps (fun s' caps' => rmatch r2 s' caps' k)
  | Opt r1 =>
      match rmatch r1 s caps k with
      | Some c => Some c
      | None => k s caps
      end
  | Group i r1 =>
      rmatch r1 s caps (fun s' caps' => k s' ((i, consumed s s') :: caps'))
  | Eos =>
      match s with
      | [] => k s caps
      | _ :: _ => None
      end
  end.

(** [s.match(re)] for a pattern that starts with [^] and has no flags: the
    only starting position is index 0. *)
Definition accept : str -> captures -> option captures :=
  fun _ caps => Some caps.

Definition match_anchored (r : regex) (s : str) : option captures :=
  rmatch r s [] accept.

End Regex.
Import Regex.

(* ================================================================== *)
(** * utils.ts: the header validator *)
(* ================================================================== *)

Definition CONVENTIONAL_COMMIT_TYPES : list str :=
  map lit
    [ "feat"; "fix"; "build"; "chore"; "ci"; "docs"; "style"; "refactor";
      "perf"; "test" ]%string.

(** [[\w.-]]. *)
Definition is_scope_char (c : N) : bool :=
  is_word_char c || (c =? 46) || (c =? 45).

(** [.] without the dotAll flag. *)
Definition is_dot_char (c : N) : bool := negb (is_line_terminator c).

(* The header pattern, with the class after the colon and the class of the
   description left open. *)
Section Pattern.

Variables sep dchar : N -> bool.

(** [:<sep>(<dchar>+)$] *)
Definition tail_pattern : regex :=
  Seq (Chr 58) (Seq (Class sep) (Seq (Group 4 (Plus dchar)) Eos)).

(** [(!)?:<sep>(<dchar>+)$] *)
Definition bang_pattern : regex := Seq (Opt (Group 3 (Chr 33))) tail_pattern.

(** [^(\w+)(?:\(([\w.-]+)\))?(!)?:<sep>(<dchar>+)$] *)
Definition header_pattern : regex :=
  Seq (Group 1 (Plus is_word_char))
 (Seq (Opt (Seq (Chr 40) (Seq (Group 2 (Plus is_scope_char)) (Chr 41))))
      bang_pattern).

End Pattern.

(** [^(\w+)(?:\(([\w.-]+)\))?(!)?:\s(.+)$]. *)
Definition CONVENTIONAL_COMMIT_HEADER_REGEX : regex :=
  header_pattern is_white_space is_dot_char.

(** A capture inside a template literal; an unset group prints as
    [undefined]. *)
Definition show_capture (c : option str) : str :=
  match c with
  | Some s => s
  | None => lit "undefined"
  end.

Definition invalid (error : str) : object :=
  [ ("isValid"%string, VBool false); ("error"%string, VString error) ].

Definition validateConventionalCommitHeader (message : str) : object :=
  let header := trim (hd [] (split_nl message)) in
  if negb (truthy header) then
    invalid (lit "Commit message header cannot be empty.")
  else
    match match_anchored CONVENTIONAL_COMMIT_HEADER_REGEX header with
    | None =>
        invalid (lit "Invalid header format. Expected '<type>(<scope>): <description>' or '<type>!: <description>' or '<type>(<scope>)!: <description>'.")
    | Some m =>
        let type := group 1 m in
        let description := group 4 m in
        if negb (match type with
                 | Some t => array_includes CONVENTIONAL_COMMIT_TYPES t
                 | None => false
                 end)
        then
          invalid (lit "Invalid type '" ++ show_capture type
                   ++ lit "'. Must be one of: "
                   ++ join (lit ", ") CONVENTIONAL_COMMIT_TYPES ++ lit ".")
        else if negb (match description with
                      | Some d => truthy d
                      | None => false
                      end)
        then invalid (lit "Description cannot be empty.")
        else [ ("isValid"%string, VBool true) ]
    end.

(** [result.isValid] as a condition. *)
Definition isValid (r : object) : bool :=
  match prop "isValid" r with
  | Some (VBool b) => b
  | Some (VString s) => truthy s
  | None => false
  end.

(** The answers of the validator, by name. *)
Definition VALID : object := [ ("isValid"%string, VBool true) ].

Definition E_EMPTY : str := lit "Commit message header cannot be empty.".

Definition E_FORMAT : str :=
  lit "Invalid header format. Expected '<type>(<scope>): <description>' or '<type>!: <description>' or '<type>(<scope>)!: <description>'.".

Definition E_TYPE (type : str) : str :=
  lit "Invalid type '" ++ type ++ lit "'. Must be one of: "
  ++ join (lit ", ") CONVENTIONAL_COMMIT_TYPES ++ lit ".".

(** The header line the validator looks at. *)
Definition header_of (message : str) : str :=
  trim (hd [] (split_nl message)).

(* ================================================================== *)
(** * A reading of the header pattern without backtracking *)
(* ================================================================== *)

Fixpoint take_while (p : N -> bool) (s : str) : str :=
  match s with
  | c :: s' => if p c then c :: take_while p s' else []
  | [] => []
  end.

Fixpoint drop_while (p : N -> bool) (s : str) : str :=
  match s with
  | c :: s' => if p c then drop_while p s' else s
  | [] => []
  end.

Section HeaderParser.

Variables sep dchar : N -> bool.

(** [:<sep>(<dchar>+)$] *)
Definition parse_tail (r : str) (caps : captures) : option captures :=
  match r with
  | c :: w :: d =>
      if (c =? 58) && sep w && truthy d && forallb dchar d
      then Some ((4%nat, d) :: caps)
      else None
  | _ => None
  end.

(** [(!)?] and what follows. *)
Definition parse_bang (r : str) (caps : captures) : option captures :=
  match r with
  | c :: r' =>
      if c =? 33 then parse_tail r' ((3%nat, [33]) :: caps)
      else parse_tail r caps
  | [] => None
  end.

(** [(?:\(([\w.-]+)\))?] and what follows. *)
Definition parse_scope (r : str) (caps : captures) : option captures :=
  match r with
  | c :: r2 =>
      if c =? 40 then
        match take_while is_scope_char r2, drop_while is_scope_char r2 with
        | (_ :: _) as sc, d :: r3 =>
            if d =? 41 then parse_bang r3 ((2%nat, sc) :: caps) else None
        | _, _ => None
        end
      else parse_bang r caps
  | [] => None
  end.

Definition parse_header (s : str) : option captures :=
  match take_while is_word_char s with
  | [] => None
  | ty => parse_scope (drop_while is_word_char s) [(1%nat, ty)]
  end.

End HeaderParser.

(** The parts of a header, and the text they stand for. *)
Record header_parts := {
  h_type : str;
  h_scope : option str;
  h_breaking : bool;
  h_sep : N;
  h_description : str
}.

Definition scope_text (sc : option str) : str :=
  match sc with
  | Some x => [40] ++ x ++ [41]
  | None => []
  end.

Definition bang_text (b : bool) : str := if b then [33] else [].

Definition render (h : header_parts) : str :=
  h_type h ++ scope_text (h_scope h) ++ bang_text (h_breaking h)
  ++ [58] ++ [h_sep h] ++ h_description h.

Definition nonempty_all (p : N -> bool) (s : str) : bool :=
  truthy s && forallb p s.

Definition scope_ok (sc : option str) : bool :=
  match sc with Some x => nonempty_all is_scope_char x | None => true end.

Definition well_formed (sep dchar : N -> bool) (h : header_parts) : bool :=
  nonempty_all is_word_char (h_type h)
  && scope_ok (h_scope h)
  && sep (h_sep h)
  && nonempty_all dchar (h_description h).

Definition bang_captures (b : bool) : captures :=
  if b then [(3%nat, [33])] else [].

Definition scope_captures (sc : option str) : captures :=
  match sc with Some x => [(2%nat, x)] | None => [] end.

(** The groups a match of the pattern leaves, the last one set first. *)
Definition captures_of (h : header_parts) : captures :=
  [(4%nat, h_description h)]
  ++ bang_captures (h_breaking h)
  ++ scope_captures (h_scope h)
  ++ [(1%nat, h_type h)].

(** [b] is empty or starts with a character outside [p]: a run of
    [p]-characters in front of [b] stops there. *)
Definition stops (p : N -> bool) (b : str) : Prop :=
  match b with
  | [] => True
  | c :: _ => p c = false
  end.

(** The grammar as a predicate on header lines. *)
Definition Grammar (sep dchar : N -> bool) (s : str) : Prop :=
  exists h, well_formed sep dchar h = true /\ s = render h.

(** The grammar the code implements: any whitespace character after the
    colon, a description without line terminators. *)
Definition CodeGrammar : str -> Prop := Grammar is_white_space is_dot_char.

(** The grammar as the specification words it: exactly one space after the
    colon, a description of one or more characters of any kind. *)
Definition SpecGrammar : str -> Prop :=
  Grammar (fun c => c =? SPACE) (fun _ => true).

(* ================================================================== *)
(** * Collaborators and effects *)
(* ================================================================== *)

(** What a rejected promise or a [throw] carries, as far as the handlers
    look at it. *)
Record js_error := {
  instanceof_Error : bool;
  message : str;
  code : option str;
  stderr_of : option str;
  to_String : str
}.

(** [new Error(msg)]. *)
Definition new_Error (msg : str) : js_error :=
  {| instanceof_Error := true; message := msg; code := None;
     stderr_of := None; to_String := lit "Error: " ++ msg |}.

(** The calls that leave the process. *)
Inductive call :=
| Stat (path : str)
| Exec (command cwd : str).

Record stats := { isDirectory : bool }.

Record exec_output := { stdout : str; stderr : str }.

(** Everything outside the modelled code.  The file system and git answer
    as a function of the calls made so far, so a stub may change its
    answers after a [git add]; [path_resolve] is [path.resolve],
    [getCommitPrompt] the template [getCommitPrompt()] returns and
    [replace] is [String.prototype.replace] on strings. *)
Record host := {
  fs_stat : list call -> str -> js_error + stats;
  exec : list call -> str -> str -> js_error + exec_output;
  path_resolve : str -> js_error + str;
  getCommitPrompt : str;
  replace : str -> str -> str -> str
}.

(** StateService.ts *)
Record StateService := {
  _projectPath : option str;
  _isValidGitRepo : bool
}.

Definition initial_state : StateService :=
  {| _projectPath := None; _isValidGitRepo := false |}.

Definition initializeProject (path : str) (isRepo : bool) : StateService :=
  {| _projectPath := Some path; _isValidGitRepo := isRepo |}.

(** A computation reads and writes the state service, appends to the log
    of calls, and returns or throws. *)
Inductive outcome (A : Type) :=
| Return (a : A)
| Throw (e : js_error).
Arguments Return {A} a.
Arguments Throw {A} e.

Definition M (A : Type) : Type :=
  StateService -> list call -> outcome A * StateService * list call.

Definition ret {A} (a : A) : M A := fun st log => (Return a, st, log).

Definition throw {A} (e : js_error) : M A := fun st log => (Throw e, st, log).

Definition bind {A B} (m : M A) (k : A -> M B) : M B :=
  fun st log =>
    match m st log with
    | (Return a, st', log') => k a st' log'
    | (Throw e, st', log') => (Throw e, st', log')
    end.

Definition try_catch {A} (m : M A) (handler : js_error -> M A) : M A :=
  fun st log =>
    match m st log with
    | (Return a, st', log') => (Return a, st', log')
    | (Throw e, st', log') => handler e st' log'
    end.

Notation "x <- m ;; k" := (bind m (fun x => k))
  (at level 61, m at next level, right associativity).

Definition get_state : M StateService := fun st log => (Return st, st, log).

Definition put_state (st : StateService) : M unit :=
  fun _ log => (Return tt, st, log).

Definition of_sum {A} (r : js_error + A) : outcome A :=
  match r with
  | inl e => Throw e
  | inr a => Return a
  end.

(** [await fs.stat(path)] *)
Definition stat (w : host) (path : str) : M stats :=
  fun st log => (of_sum (fs_stat w log path), st, log ++ [Stat path]).

(** [await execPromise(command, { cwd })] *)
Definition execPromise (w : host) (command cwd : str) : M exec_output :=
  fun st log =>
    (of_sum (exec w log command cwd), st, log ++ [Exec command cwd]).

(** [path.resolve(p)] *)
Definition resolve (w : host) (p : str) : M str :=
  fun st log => (of_sum (path_resolve w p), st, log).

(** The uniform envelope: text blocks and the optional error flag. *)
Inductive content_block :=
| Text (text : str).

Record ToolResult := {
  content : list content_block;
  isError : bool
}.

Definition success (text : str) : ToolResult :=
  {| content := [Text text]; isError := false |}.

Definition failure (text : str) : ToolResult :=
  {| content := [Text text]; isError := true |}.

(* ================================================================== *)
(** * utils.ts: git helpers *)
(* ================================================================== *)

Definition GIT_REV_PARSE : str := lit "git rev-parse --is-inside-work-tree".
Definition GIT_DIFF_STAGED : str := lit "git diff --staged".
Definition GIT_DIFF : str := lit "git diff".
Definition GIT_LS_FILES : str := lit "git ls-files --others --exclude-standard".

Definition checkGitRepo (w : host) (projectPath : str) : M bool :=
  try_catch
    (_ <- execPromise w GIT_REV_PARSE projectPath ;; ret true)
    (fun _ => ret false).

Definition NO_CHANGES : str := lit "No changes detected".
Definition DIFF_ERROR_PREFIX : str := lit "Error retrieving git diff:".

(** [untrackedFilesOutput.split("\n").filter((line) => line.trim() !== "")] *)
Definition untracked_lines (untrackedFilesOutput : str) : list str :=
  filter (fun line => truthy (trim line)) (split_nl untrackedFilesOutput).

(** The body of [getGitDiff] once the three outputs are there. *)
Definition render_diff (stagedDiff unstagedDiff untrackedFilesOutput : str)
  : str :=
  let untrackedFiles := untracked_lines untrackedFilesOutput in
  let result := [] in
  let hasChanges := false in
  let '(result, hasChanges) :=
    if truthy (trim stagedDiff)
    then (result ++ lit "=== STAGED CHANGES ===" ++ [NL]
                 ++ trim stagedDiff ++ [NL; NL], true)
    else (result, hasChanges) in
  let '(result, hasChanges) :=
    if truthy (trim unstagedDiff)
    then (result ++ lit "=== UNSTAGED CHANGES ===" ++ [NL]
                 ++ trim unstagedDiff ++ [NL; NL], true)
    else (result, hasChanges) in
  let '(result, hasChanges) :=
    if (0 <? List.length untrackedFiles)%nat
    then (result ++ lit "=== UNTRACKED FILES ===" ++ [NL]
                 ++ join [NL] untrackedFiles ++ [NL], true)
    else (result, hasChanges) in
  if hasChanges then trim result else NO_CHANGES.

Definition getGitDiff (w : host) (projectPath : str) : M str :=
  try_catch
    (staged <- execPromise w GIT_DIFF_STAGED projectPath ;;
     unstaged <- execPromise w GIT_DIFF projectPath ;;
     untracked <- execPromise w GIT_LS_FILES projectPath ;;
     ret (render_diff (stdout staged) (stdout unstaged) (stdout untracked)))
    (fun error =>
       if instanceof_Error error
       then ret (lit "Error retrieving git diff: " ++ message error)
       else ret (lit "Error retrieving git diff: Unknown error")).

(* ================================================================== *)
(** * The tools *)
(* ================================================================== *)

Definition truthy_opt (p : option str) : bool :=
  match p with
  | Some s => truthy s
  | None => false
  end.

(** A [string | null] used where the gate has narrowed it to a string. *)
Definition narrowed (p : option str) : str :=
  match p with
  | Some s => s
  | None => []
  end.

Definition NOT_INITIALIZED : ToolResult :=
  failure (lit "Error: Project not initialized or not a valid Git repository. Please use initialize-project tool first.").

Module InitializeProject.

Definition quoted (s : str) : str := [DQUOTE] ++ s ++ [DQUOTE].

Definition execute (w : host) (projectPath : str) : M ToolResult :=
  try_catch
    (resolvedPath <- resolve w projectPath ;;
     early <-
       try_catch
         (stats <- stat w resolvedPath ;;
          if negb (isDirectory stats)
          then throw (new_Error (lit "The path " ++ quoted resolvedPath
                                 ++ lit " is not a directory."))
          else ret None)
         (fun error =>
            let errorMessage :=
              if match code error with
                 | Some c => str_eqb c (lit "ENOENT")
                 | None => false
                 end
              then lit "The path " ++ quoted resolvedPath
                   ++ lit " does not exist."
              else if match code error with
                      | Some c => str_eqb c (lit "ENOTDIR")
                      | None => false
                      end
              then lit "The path " ++ quoted resolvedPath
                   ++ lit " is not a directory."
              else lit "Error accessing path " ++ quoted resolvedPath
                   ++ lit ": " ++ message error in
            ret (Some (failure (lit "Error: " ++ errorMessage)))) ;;
     match early with
     | Some result => ret result
     | None =>
         isGitRepo <- checkGitRepo w resolvedPath ;;
         if negb isGitRepo
         then ret (failure (lit "Error: The path " ++ quoted resolvedPath
                            ++ lit " is not a git repository. Initialize with 'git init' if needed."))
         else
           _ <- put_state (initializeProject resolvedPath isGitRepo) ;;
           ret (success (lit "Successfully initialized git project at: "
                         ++ resolvedPath))
     end)
    (fun error =>
       ret (failure (lit "Unexpected error initializing project: "
                     ++ (if instanceof_Error error then message error
                         else to_String error)))).

End InitializeProject.

Module GetGitDiff.

Definition execute (w : host) : M ToolResult :=
  st <- get_state ;;
  let projectPath := _projectPath st in
  let isValidGitRepo := _isValidGitRepo st in
  if negb (truthy_opt projectPath) || negb isValidGitRepo
  then ret NOT_INITIALIZED
  else
    try_catch
      (diff <- getGitDiff w (narrowed projectPath) ;;
       if startsWith DIFF_ERROR_PREFIX diff
       then ret (failure diff)
       else ret (success diff))
      (fun error =>
         ret (failure (lit "Unexpected error getting git diff: "
                       ++ message error))).

End GetGitDiff.

Module GenerateCommitPrompt.

Definition scopeInstruction (scope : option str) : str :=
  if truthy_opt scope
  then lit "Use the provided scope " ++ [DQUOTE] ++ narrowed scope
       ++ [DQUOTE] ++ lit "."
  else lit "Determine an appropriate scope based on the changes if applicable, otherwise omit the scope.".

Definition prompt (w : host) (diff : str) (scope : option str) : str :=
  replace w (replace w (getCommitPrompt w) (lit "{diff}") diff)
          (lit "{scope_instruction}") (scopeInstruction scope).

Definition execute (w : host) (scope : option str) : M ToolResult :=
  st <- get_state ;;
  let projectPath := _projectPath st in
  let isValidGitRepo := _isValidGitRepo st in
  if negb (truthy_opt projectPath) || negb isValidGitRepo
  then ret NOT_INITIALIZED
  else
    try_catch
      (diff <- getGitDiff w (narrowed projectPath) ;;
       if str_eqb diff NO_CHANGES
       then ret (success (lit "No changes detected to generate a commit message prompt for."))
       else if startsWith DIFF_ERROR_PREFIX diff
       then ret (failure diff)
       else ret (success (prompt w diff scope)))
      (fun error =>
         ret (failure (lit "Unexpected error preparing commit message prompt: "
                       ++ message error))).

End GenerateCommitPrompt.

Module CreateCommit.

(** [str.replace(/"/g, '\\"')] *)
Definition escapeQuotes (s : str) : str :=
  flat_map (fun c => if c =? DQUOTE then [BACKSLASH; DQUOTE] else [c]) s.

(** [message.trim().split("\n")] *)
Definition messageLines (message : str) : list str :=
  split_nl (trim message).

Definition subject (message : str) : str := hd [] (messageLines message).

Definition body (message : str) : str := join [NL] (tl (messageLines message)).

Definition commitCommand (message : str) : str :=
  let commitCommand :=
    lit "git commit -m " ++ [DQUOTE] ++ escapeQuotes (subject message)
    ++ [DQUOTE] in
  if truthy (body message)
  then commitCommand ++ lit " -m " ++ [DQUOTE]
       ++ escapeQuotes (body message) ++ [DQUOTE]
  else commitCommand.

Definition validation_failed (validationResult : object) (message : str)
  : ToolResult :=
  failure (lit "Error: Commit message validation failed. "
           ++ match prop "error" validationResult with
              | Some (VString e) => e
              | Some (VBool true) => lit "true"
              | Some (VBool false) => lit "false"
              | None => lit "undefined"
              end
           ++ lit " Provided message:" ++ [NL] ++ lit "---" ++ [NL]
           ++ message ++ [NL] ++ lit "---" ++ [NL]
           ++ lit "To commit anyway, use 'validate: false'.").

Definition commit_error (addAll : bool) (error : js_error) : ToolResult :=
  let errorMessage := lit "Error creating commit: " ++ message error in
  let errorMessage :=
    if truthy_opt (stderr_of error) then
      let stderrString := narrowed (stderr_of error) in
      if includes (lit "nothing to commit") stderrString then
        lit "Error: No changes were staged for commit. Use 'addAll: true' or stage files manually before committing."
      else if includes (lit "Please tell me who you are") stderrString then
        lit "Error: Git user identity (name and email) is not configured. Please configure it using 'git config --global user.name "
        ++ [DQUOTE] ++ lit "Your Name" ++ [DQUOTE]
        ++ lit "' and 'git config --global user.email "
        ++ [DQUOTE] ++ lit "your.email@example.com" ++ [DQUOTE] ++ lit "'."
      else if includes (lit "changes not staged for commit") stderrString
              && negb addAll then
        lit "Error: There are unstaged changes. Use 'addAll: true' to include them or stage them manually before committing."
      else errorMessage ++ [NL] ++ lit "Details: " ++ trim stderrString
    else errorMessage in
  failure errorMessage.

Definition execute (w : host) (message : str) (addAll validate : bool)
  : M ToolResult :=
  st <- get_state ;;
  let projectPath := _projectPath st in
  let isValidGitRepo := _isValidGitRepo st in
  if negb (truthy_opt projectPath) || negb isValidGitRepo
  then ret NOT_INITIALIZED
  else
    let rejected :=
      if validate then
        let validationResult := validateConventionalCommitHeader message in
        if negb (isValid validationResult)
        then Some (validation_failed validationResult message)
        else None
      else None in
    match rejected with
    | Some result => ret result
    | None =>
        try_catch
          (_ <- (if addAll
                 then _ <- execPromise w (lit "git add -A")
                                       (narrowed projectPath) ;; ret tt
                 else ret tt) ;;
           out <- execPromise w (commitCommand message)
                              (narrowed projectPath) ;;
           ret (success (lit "Successfully created commit:" ++ [NL]
                         ++ trim (stdout out) ++ [NL]
                         ++ (if truthy (stderr out)
                             then [NL] ++ lit "Git Messages:" ++ [NL]
                                  ++ trim (stderr out)
                             else []))))
          (fun error => ret (commit_error addAll error))
    end.

End CreateCommit.

(** The operations behind the project gate, and the tool surface. *)
Inductive gated_operation :=
| get_git_diff
| generate_commit_prompt (scope : option str)
| create_commit (message : str) (addAll validate : bool).

Definition run_gated (w : host) (op : gated_operation) : M ToolResult :=
  match op with
  | get_git_diff => GetGitDiff.execute w
  | generate_commit_prompt scope => GenerateCommitPrompt.execute w scope
  | create_commit message addAll validate =>
      CreateCommit.execute w message addAll validate
  end.

(** The project context lets gated operations through. *)
Definition initialized (st : StateService) : bool :=
  truthy_opt (_projectPath st) && _isValidGitRepo st.

(** The text of the first content block. *)
Definition text_of (r : ToolResult) : str :=
  match content r with
  | Text t :: _ => t
  | [] => []
  end.

(* ================================================================== *)
(** * Sample inputs *)
(* ================================================================== *)

Definition MFA_MESSAGE : str := lit "feat(auth)!: implement MFA".

(** [feat:<TAB>foo] *)
Definition TAB_MESSAGE : str := lit "feat:" ++ [TAB] ++ lit "foo".

(** [feat: a<CR>b] *)
Definition CR_MESSAGE : str := lit "feat: a" ++ [CR] ++ lit "b".

(* ================================================================== *)
(** * Vocabulary of the statements *)
(* ================================================================== *)

(** A text is blank when it holds whitespace only. *)
Definition blank (s : str) : bool := forallb is_white_space s.

(** Some section of the aggregate has content. *)
Definition has_changes (stagedDiff unstagedDiff untrackedFilesOutput : str)
  : bool :=
  negb (blank stagedDiff) || negb (blank unstagedDiff)
  || negb (forallb blank (split_nl untrackedFilesOutput)).

(** The three calls of [getGitDiff], in the order they are awaited. *)
Definition diff_calls (cwd : str) : list call :=
  [ Exec GIT_DIFF_STAGED cwd; Exec GIT_DIFF cwd; Exec GIT_LS_FILES cwd ].

(** All three calls succeed, with these outputs. *)
Definition answers (w : host) (log : list call) (cwd : str)
           (staged unstaged untracked : exec_output) : Prop :=
  exec w log GIT_DIFF_STAGED cwd = inr staged
  /\ exec w (log ++ [Exec GIT_DIFF_STAGED cwd]) GIT_DIFF cwd = inr unstaged
  /\ exec w ((log ++ [Exec GIT_DIFF_STAGED cwd]) ++ [Exec GIT_DIFF cwd])
          GIT_LS_FILES cwd = inr untracked.

(** The first of the three calls to fail fails with [e], after the calls
    [made] were issued. *)
Inductive first_failure (w : host) (log : list call) (cwd : str)
  : js_error -> list call -> Prop :=
| staged_fails e :
    exec w log GIT_DIFF_STAGED cwd = inl e ->
    first_failure w log cwd e [Exec GIT_DIFF_STAGED cwd]
| unstaged_fails staged e :
    exec w log GIT_DIFF_STAGED cwd = inr staged ->
    exec w (log ++ [Exec GIT_DIFF_STAGED cwd]) GIT_DIFF cwd = inl e ->
    first_failure w log cwd e [Exec GIT_DIFF_STAGED cwd; Exec GIT_DIFF cwd]
| untracked_fails staged unstaged e :
    exec w log GIT_DIFF_STAGED cwd = inr staged ->
    exec w (log ++ [Exec GIT_DIFF_STAGED cwd]) GIT_DIFF cwd = inr unstaged ->
    exec w ((log ++ [Exec GIT_DIFF_STAGED cwd]) ++ [Exec GIT_DIFF cwd])
         GIT_LS_FILES cwd = inl e ->
    first_failure w log cwd e (diff_calls cwd).

(** The text [getGitDiff] returns for a failure. *)
Definition diff_failure (e : js_error) : str :=
  lit "Error retrieving git diff: "
  ++ (if instanceof_Error e then message e else lit "Unknown error").


(** The three blocks of the aggregate. *)
Definition staged_block (stagedDiff : str) : str :=
  lit "=== STAGED CHANGES ===" ++ [NL] ++ trim stagedDiff ++ [NL; NL].

Definition unstaged_block (unstagedDiff : str) : str :=
  lit "=== UNSTAGED CHANGES ===" ++ [NL] ++ trim unstagedDiff ++ [NL; NL].

Definition untracked_block (untrackedFilesOutput : str) : str :=
  lit "=== UNTRACKED FILES ===" ++ [NL]
  ++ join [NL] (untracked_lines untrackedFilesOutput) ++ [NL].

(** A text that opens with ["=== "] and a further character that is not
    whitespace. *)
Definition starts_banner (r : str) : Prop :=
  exists c rest, r = lit "=== " ++ c :: rest /\ is_white_space c = false.

(** The diff result as a tagged variant. *)
Inductive DiffResult :=
| Empty
| Changes (text : str)
| Failure (reason : str).

(** The text [getGitDiff] returns for each variant. *)
Definition diff_text (d : DiffResult) : str :=
  match d with
  | Empty => NO_CHANGES
  | Changes text => text
  | Failure reason => reason
  end.

(** The variant [getGitDiff] produces, by the [return] statement it
    reaches, and the calls it has issued by then. *)
Inductive produces (w : host) (log : list call) (cwd : str)
  : DiffResult -> list call -> Prop :=
| produces_empty so uo to :
    answers w log cwd so uo to ->
    has_changes (stdout so) (stdout uo) (stdout to) = false ->
    produces w log cwd Empty (diff_calls cwd)
| produces_changes so uo to :
    answers w log cwd so uo to ->
    has_changes (stdout so) (stdout uo) (stdout to) = true ->
    produces w log cwd
             (Changes (render_diff (stdout so) (stdout uo) (stdout to)))
             (diff_calls cwd)
| produces_failure e made :
    first_failure w log cwd e made ->
    produces w log cwd (Failure (diff_failure e)) made.

(** The variant a caller reads from the returned text, with the tests of
    generate-commit-prompt. *)
Definition classify (diff : str) : DiffResult :=
  if str_eqb diff NO_CHANGES then Empty
  else if startsWith DIFF_ERROR_PREFIX diff then Failure diff
  else Changes diff.

(** What the two callers answer for each variant. *)
Definition get_git_diff_reply (d : DiffResult) : ToolResult :=
  match d with
  | Failure reason => failure reason
  | _ => success (diff_text d)
  end.

Definition generate_commit_prompt_reply (w : host) (scope : option str)
           (d : DiffResult) : ToolResult :=
  match d with
  | Empty =>
      success (lit "No changes detected to generate a commit message prompt for.")
  | Failure reason => failure reason
  | Changes text => success (GenerateCommitPrompt.prompt w text scope)
  end.

(** Every check of initialize-project passes, and [resolved] is the path
    it confirms. *)
Definition checks_pass (w : host) (log : list call) (rawPath resolved : str)
  : Prop :=
  path_resolve w rawPath = inr resolved
  /\ (exists s, fs_stat w log resolved = inr s /\ isDirectory s = true)
  /\ (exists o, exec w (log ++ [Stat resolved]) GIT_REV_PARSE resolved
                = inr o).

(* ================================================================== *)
(** * Sample hosts *)
(* ================================================================== *)

Definition quiet (out : str) : exec_output := {| stdout := out; stderr := [] |}.

(** Every path is a directory inside a work tree; git prints the given
    outputs for the three diff commands and nothing for the others. *)
Definition sample_host (staged unstaged untracked : str) : host :=
  {| fs_stat := fun _ _ => inr {| isDirectory := true |};
     exec := fun _ command _ =>
       if str_eqb command GIT_DIFF_STAGED then inr (quiet staged)
       else if str_eqb command GIT_DIFF then inr (quiet unstaged)
       else if str_eqb command GIT_LS_FILES then inr (quiet untracked)
       else inr (quiet []);
     path_resolve := fun p => inr p;
     getCommitPrompt := lit "{diff}";
     replace := fun s _ _ => s |}.

(** No git: every command fails with the given message. *)
Definition broken_host (msg : str) : host :=
  {| fs_stat := fun _ _ => inr {| isDirectory := true |};
     exec := fun _ _ _ => inl (new_Error msg);
     path_resolve := fun p => inr p;
     getCommitPrompt := lit "{diff}";
     replace := fun s _ _ => s |}.

Definition REPO : str := lit "/repo".

Definition sample_state : StateService := initializeProject REPO true.

(** [fix: print $HOME], a blank line, [body]. *)
Definition SHELL_MESSAGE : str :=
  lit "fix: print $HOME" ++ [NL; NL] ++ lit "body".

(* ================================================================== *)
(** * Vocabulary of the further statements *)
(* ================================================================== *)





(** [a] is an initial segment of [b]. *)
Definition is_prefix {A} (a b : list A) : Prop := exists c, b = a ++ c.


(** One tool invocation. *)
Inductive invocation :=
| initialize_project (path : str)
| gated (op : gated_operation).

Definition invoke (w : host) (i : invocation) : M ToolResult :=
  match i with
  | initialize_project path => InitializeProject.execute w path
  | gated op => run_gated w op
  end.

(** A session: invocations run one after the other on the shared context
    and log; the outcomes are collected in order. *)
Fixpoint session (w : host) (invocations : list invocation)
         (st : StateService) (log : list call)
  : list (outcome ToolResult) * StateService * list call :=
  match invocations with
  | [] => ([], st, log)
  | i :: rest =>
      let '(o, st1, log1) := invoke w i st log in
      let '(os, st2, log2) := session w rest st1 log1 in
      (o :: os, st2, log2)
  end.

(** The context is empty, or holds a path with the validated flag set. *)
Definition context_well_formed (st : StateService) : Prop :=
  st = initial_state \/ exists p, st = initializeProject p true.

Definition returned {A} (o : outcome A) : Prop := exists a, o = Return a.

Definition GIT_ADD_ALL : str := lit "git add -A".

Definition E_NOTHING_STAGED : str :=
  lit "Error: No changes were staged for commit. Use 'addAll: true' or stage files manually before committing.".

Definition E_UNSTAGED : str :=
  lit "Error: There are unstaged changes. Use 'addAll: true' to include them or stage them manually before committing.".

(** Every path is a regular file. *)
Definition file_host : host :=
  {| fs_stat := fun _ _ => inr {| isDirectory := false |};
     exec := fun _ _ _ => inr (quiet []);
     path_resolve := fun p => inr p;
     getCommitPrompt := lit "{diff}";
     replace := fun s _ _ => s |}.

(** Staging works; [git commit] is rejected with the given error output. *)
Definition rejecting_host (errors : str) : host :=
  {| fs_stat := fun _ _ => inr {| isDirectory := true |};
     exec := fun _ command _ =>
       if startsWith (lit "git commit") command
       then inl {| instanceof_Error := true;
                   message := lit "Command failed";
                   code := None;
                   stderr_of := Some errors;
                   to_String := lit "Error: Command failed" |}
       else inr (quiet []);
     path_resolve := fun p => inr p;
     getCommitPrompt := lit "{diff}";
     replace := fun s _ _ => s |}.

(** Nothing can be staged: [git add] is rejected. *)
Definition locked_host : host :=
  {| fs_stat := fun _ _ => inr {| isDirectory := true |};
     exec := fun _ command _ =>
       if str_eqb command GIT_ADD_ALL
       then inl (new_Error (lit "index.lock exists"))
       else inr (quiet []);
     path_resolve := fun p => inr p;
     getCommitPrompt := lit "{diff}";
     replace := fun s _ _ => s |}.

(* ================================================================== *)
(** * index.ts: the earlier, single-file server *)
(* ================================================================== *)

Module Legacy.

(** The body of [getGitDiff] once the three outputs are there. *)
Definition render_diff (stagedDiff unstagedDiff untrackedFiles : str) : str :=
  let result := [] in
  let result :=
    if truthy (trim stagedDiff)
    then result ++ lit "=== STAGED CHANGES ===" ++ [NL] ++ stagedDiff
                ++ [NL; NL]
    else result in
  let result :=
    if truthy (trim unstagedDiff)
    then result ++ lit "=== UNSTAGED CHANGES ===" ++ [NL] ++ unstagedDiff
                ++ [NL; NL]
    else result in
  let result :=
    if truthy (trim untrackedFiles)
    then result ++ lit "=== UNTRACKED FILES ===" ++ [NL]
                ++ join [NL] (split_nl untrackedFiles) ++ [NL]
    else result in
  if truthy result then result else NO_CHANGES.

Definition DIFF_ERROR : str := lit "Error retrieving git diff".

Definition getGitDiff (w : host) (projectPath : str) : M str :=
  try_catch
    (staged <- execPromise w GIT_DIFF_STAGED projectPath ;;
     unstaged <- execPromise w GIT_DIFF projectPath ;;
     untracked <- execPromise w GIT_LS_FILES projectPath ;;
     ret (render_diff (stdout staged) (stdout unstaged) (stdout untracked)))
    (fun _ => ret DIFF_ERROR).

Definition NOT_INITIALIZED : ToolResult :=
  failure (lit "Error: Project not initialized. Please use initialize-project tool first.").

(** The [get-git-diff] tool. *)
Definition get_git_diff (w : host) : M ToolResult :=
  st <- get_state ;;
  if negb (truthy_opt (_projectPath st)) || negb (_isValidGitRepo st)
  then ret NOT_INITIALIZED
  else
    try_catch
      (diff <- getGitDiff w (narrowed (_projectPath st)) ;;
       ret (success diff))
      (fun error =>
         ret (failure (lit "Error getting git diff: " ++ message error))).

Definition scopeInfo (scope : option str) : str :=
  if truthy_opt scope
  then lit "with scope " ++ [DQUOTE] ++ narrowed scope ++ [DQUOTE] ++ lit " "
  else [].

(** The [generate-commit-message] tool. *)
Definition generate_commit_message (w : host) (scope : option str)
  : M ToolResult :=
  st <- get_state ;;
  if negb (truthy_opt (_projectPath st)) || negb (_isValidGitRepo st)
  then ret NOT_INITIALIZED
  else
    try_catch
      (diff <- getGitDiff w (narrowed (_projectPath st)) ;;
       if str_eqb diff NO_CHANGES
       then ret (success (lit "No changes detected to create a commit message for."))
       else
         ret (success (replace w (replace w (getCommitPrompt w)
                                          (lit "{diff}") diff)
                               (lit "{scope}") (scopeInfo scope))))
      (fun error =>
         ret (failure (lit "Error generating commit message: "
                       ++ message error))).

Definition commitCommand (message : str) : str :=
  lit "git commit -m " ++ [DQUOTE] ++ CreateCommit.escapeQuotes message
  ++ [DQUOTE].

(** The [catch] of the [create-commit] tool. *)
Definition commit_failed (error : js_error) : ToolResult :=
  failure (lit "Error creating commit: " ++ message error).

(** The [create-commit] tool. *)
Definition create_commit (w : host) (message : str) (addAll : bool)
  : M ToolResult :=
  st <- get_state ;;
  if negb (truthy_opt (_projectPath st)) || negb (_isValidGitRepo st)
  then ret NOT_INITIALIZED
  else
    try_catch
      (_ <- (if addAll
             then _ <- execPromise w (lit "git add -A")
                                   (narrowed (_projectPath st)) ;; ret tt
             else ret tt) ;;
       out <- execPromise w (commitCommand message)
                          (narrowed (_projectPath st)) ;;
       ret (success (lit "Successfully created commit:" ++ [NL]
                     ++ stdout out)))
      (fun error => ret (commit_failed error)).

End Legacy.

(* ================================================================== *)
(** * Facts about the string helpers *)
(* ================================================================== *)

Lemma str_eqb_eq (a b : str) : str_eqb a b = true <-> a = b.
Proof.
  revert b; induction a as [|x a IH]; intros [|y b]; simpl;
    try (split; [discriminate | congruence]); try tauto.
  rewrite andb_true_iff, N.eqb_eq, IH. split.
  - intros [-> ->]; reflexivity.
  - intros H; inversion H; auto.
Qed.

Lemma array_includes_In (arr : list str) (x : str) :
  array_includes arr x = true <-> In x arr.
Proof.
  unfold array_includes. rewrite existsb_exists. split.
  - intros (t & Hin & E). apply str_eqb_eq in E. now subst.
  - intros Hin. exists x. split; [assumption | now apply str_eqb_eq].
Qed.

Lemma take_drop_while (p : N -> bool) (s : str) :
  take_while p s ++ drop_while p s = s.
Proof.
  induction s as [|c s IH]; simpl; [reflexivity|].
  destruct (p c); simpl; [now rewrite IH | reflexivity].
Qed.

Lemma take_while_all (p : N -> bool) (s : str) :
  forallb p (take_while p s) = true.
Proof.
  induction s as [|c s IH]; simpl; [reflexivity|].
  destruct (p c) eqn:E; simpl; [now rewrite E | reflexivity].
Qed.

Lemma take_while_nil_drop (p : N -> bool) (s : str) :
  take_while p s = [] -> drop_while p s = s.
Proof.
  destruct s as [|c s]; simpl; [reflexivity|].
  destruct (p c); [discriminate | reflexivity].
Qed.

Lemma take_while_app (p : N -> bool) (a b : str) :
  forallb p a = true -> stops p b -> take_while p (a ++ b) = a.
Proof.
  induction a as [|x a IH]; simpl; intros Ha Hb.
  - destruct b as [|c b]; simpl in *; [reflexivity | now rewrite Hb].
  - apply andb_true_iff in Ha as [-> Ha]. now rewrite IH.
Qed.

Lemma drop_while_app (p : N -> bool) (a b : str) :
  forallb p a = true -> stops p b -> drop_while p (a ++ b) = b.
Proof.
  induction a as [|x a IH]; simpl; intros Ha Hb.
  - destruct b as [|c b]; simpl in *; [reflexivity | now rewrite Hb].
  - apply andb_true_iff in Ha as [-> Ha]. now rewrite IH.
Qed.

Lemma drop_while_stops (p : N -> bool) (s : str) : stops p (drop_while p s).
Proof.
  induction s as [|c s IH]; simpl; [exact I|].
  destruct (p c) eqn:E; simpl; auto.
Qed.

Lemma consumed_app (a b : str) : consumed (a ++ b) b = a.
Proof.
  unfold consumed. rewrite length_app, Nat.add_sub, firstn_app.
  rewrite firstn_all, Nat.sub_diag. simpl. apply app_nil_r.
Qed.

Lemma consumed_drop_while (p : N -> bool) (s : str) :
  consumed s (drop_while p s) = take_while p s.
Proof.
  rewrite <- (take_drop_while p s) at 1. apply consumed_app.
Qed.

Lemma consumed_nil (s : str) : consumed s [] = s.
Proof.
  rewrite <- (app_nil_r s) at 1. apply consumed_app.
Qed.

(* ================================================================== *)
(** * The matcher on the header pattern *)
(* ================================================================== *)

(** When the continuation rejects every input that still starts inside the
    class, giving characters back never helps: [X+] takes the whole run. *)
Lemma plus_loop_det {R} (p : N -> bool) (k : str -> option R) (s : str) :
  (forall c s', p c = true -> k (c :: s') = None) ->
  plus_loop p s k =
  match take_while p s with
  | [] => None
  | _ :: _ => k (drop_while p s)
  end.
Proof.
  intros Hk. induction s as [|c s IH]; simpl; [reflexivity|].
  destruct (p c) eqn:Hc; [|reflexivity].
  rewrite IH. destruct (take_while p s) as [|x t] eqn:Ht.
  - now rewrite (take_while_nil_drop p s Ht).
  - destruct (k (drop_while p s)); [reflexivity|].
    destruct s as [|y s]; simpl in Ht; [discriminate|].
    destruct (p y) eqn:Hy; [|discriminate]. now rewrite Hk.
Qed.

(** [X+$]: the whole remaining input must be a non-empty run. *)
Lemma plus_loop_eos {R} (p : N -> bool) (f : str -> option R) (s : str) :
  plus_loop p s (fun s' => match s' with [] => f s' | _ :: _ => None end) =
  if nonempty_all p s then f [] else None.
Proof.
  unfold nonempty_all. induction s as [|c s IH]; simpl; [reflexivity|].
  destruct (p c) eqn:Hc; [|reflexivity].
  rewrite IH. simpl. destruct s as [|y s]; simpl; [reflexivity|].
  destruct (p y && forallb p s); [|reflexivity].
  destruct (f []); reflexivity.
Qed.

Lemma word_char_not (c : N) :
  is_word_char c = true -> (c =? 40) = false /\ (c =? 33) = false /\ (c =? 58) = false.
Proof.
  intros H. repeat split.
  all: match goal with |- (_ =? ?n) = false =>
         destruct (N.eqb_spec c n); [subst; discriminate H | reflexivity] end.
Qed.

Lemma scope_char_not (c : N) : is_scope_char c = true -> (c =? 41) = false.
Proof.
  intros H. destruct (N.eqb_spec c 41); [subst; discriminate H | reflexivity].
Qed.

Section HeaderPattern.

Variables sep dchar : N -> bool.

Lemma rmatch_tail (r : str) (caps : captures) :
  rmatch (tail_pattern sep dchar) r caps accept = parse_tail sep dchar r caps.
Proof.
  unfold tail_pattern, parse_tail, accept.
  destruct r as [|c [|w d]]; simpl.
  - reflexivity.
  - destruct (c =? 58); reflexivity.
  - destruct (c =? 58); simpl; [|reflexivity].
    destruct (sep w); simpl; [|reflexivity].
    etransitivity;
      [ exact (plus_loop_eos dchar
                 (fun s' => Some ((4%nat, consumed d s') :: caps)) d) |].
    unfold nonempty_all.
    destruct (truthy d && forallb dchar d); [|reflexivity].
    now rewrite consumed_nil.
Qed.

Lemma parse_tail_bang (r : str) (caps : captures) :
  parse_tail sep dchar (33 :: r) caps = None.
Proof. destruct r; reflexivity. Qed.

Lemma parse_tail_paren (r : str) (caps : captures) :
  parse_tail sep dchar (40 :: r) caps = None.
Proof. destruct r; reflexivity. Qed.

Lemma rmatch_bang (r : str) (caps : captures) :
  rmatch (bang_pattern sep dchar) r caps accept = parse_bang sep dchar r caps.
Proof.
  unfold bang_pattern, parse_bang. cbn [rmatch].
  destruct r as [|c r].
  - rewrite rmatch_tail. reflexivity.
  - destruct (N.eqb_spec c 33) as [->|Hc].
    + rewrite !rmatch_tail. rewrite (parse_tail_bang r caps).
      replace (consumed (33 :: r) r) with [33]
        by (symmetry; apply (consumed_app [33] r)).
      destruct (parse_tail sep dchar r _); reflexivity.
    + now rewrite rmatch_tail.
Qed.

Lemma parse_bang_paren (r : str) (caps : captures) :
  parse_bang sep dchar (40 :: r) caps = None.
Proof. exact (parse_tail_paren r caps). Qed.

Lemma parse_bang_word (c : N) (r : str) (caps : captures) :
  is_word_char c = true -> parse_bang sep dchar (c :: r) caps = None.
Proof.
  intros H. destruct (word_char_not c H) as (_ & H33 & H58).
  unfold parse_bang. rewrite H33. unfold parse_tail.
  destruct r; [reflexivity|]. now rewrite H58.
Qed.

Lemma match_header_pattern (s : str) :
  match_anchored (header_pattern sep dchar) s = parse_header sep dchar s.
Proof.
  unfold match_anchored, header_pattern, parse_header. cbn [rmatch].
  rewrite plus_loop_det.
  - destruct (take_while is_word_char s) as [|x ty] eqn:Hty; [reflexivity|].
    rewrite consumed_drop_while, Hty.
    set (caps := [(1%nat, x :: ty)]).
    unfold parse_scope.
    destruct (drop_while is_word_char s) as [|c r2]; [apply rmatch_bang|].
    destruct (N.eqb_spec c 40) as [->|Hc]; [|now rewrite rmatch_bang].
    rewrite plus_loop_det.
    + rewrite rmatch_bang, parse_bang_paren.
      destruct (take_while is_scope_char r2) as [|y sc] eqn:Hsc; [reflexivity|].
      rewrite consumed_drop_while, Hsc.
      destruct (drop_while is_scope_char r2) as [|d r3]; [reflexivity|].
      destruct (d =? 41); [|reflexivity].
      rewrite rmatch_bang.
      destruct (parse_bang sep dchar r3 _); reflexivity.
    + intros c s' Hc. now rewrite (scope_char_not c Hc).
  - intros c s' Hc. destruct (word_char_not c Hc) as (H40 & _).
    rewrite H40, !rmatch_bang. apply parse_bang_word, Hc.
Qed.

End HeaderPattern.

(* ================================================================== *)
(** * The header pattern and the grammar *)
(* ================================================================== *)

Section HeaderGrammar.

Variables sep dchar : N -> bool.

Lemma parse_bang_text (b : bool) (rest : str) (caps : captures) :
  parse_bang sep dchar (bang_text b ++ 58 :: rest) caps =
  parse_tail sep dchar (58 :: rest) (bang_captures b ++ caps).
Proof. destruct b; reflexivity. Qed.

Lemma nonempty_all_inv (p : N -> bool) (s : str) :
  nonempty_all p s = true ->
  exists c s', s = c :: s' /\ p c = true /\ forallb p s = true.
Proof.
  unfold nonempty_all. destruct s as [|c s']; simpl; [discriminate|].
  intros H. apply andb_true_iff in H as [Hc Hs].
  exists c, s'. rewrite Hc, Hs. auto.
Qed.

Lemma parse_scope_text (sc : option str) (b : bool) (rest : str)
      (caps : captures) :
  scope_ok sc = true ->
  parse_scope sep dchar (scope_text sc ++ bang_text b ++ 58 :: rest) caps =
  parse_tail sep dchar (58 :: rest)
             (bang_captures b ++ scope_captures sc ++ caps).
Proof.
  destruct sc as [x|]; simpl; intros Hsc.
  - destruct (nonempty_all_inv _ _ Hsc) as (c & x' & -> & _ & Hall).
    unfold parse_scope. rewrite <- app_assoc.
    rewrite take_while_app, drop_while_app by (auto; reflexivity).
    simpl. apply parse_bang_text.
  - destruct b; reflexivity.
Qed.

Lemma parse_header_prefix (ty : str) (sc : option str) (b : bool)
      (rest : str) :
  nonempty_all is_word_char ty = true ->
  scope_ok sc = true ->
  parse_header sep dchar (ty ++ scope_text sc ++ bang_text b ++ 58 :: rest) =
  parse_tail sep dchar (58 :: rest)
             (bang_captures b ++ scope_captures sc ++ [(1%nat, ty)]).
Proof.
  intros Hty Hsc.
  destruct (nonempty_all_inv _ _ Hty) as (c & ty' & -> & _ & Hall).
  unfold parse_header.
  assert (Hstop : stops is_word_char
                    (scope_text sc ++ bang_text b ++ 58 :: rest))
    by (destruct sc, b; reflexivity).
  rewrite take_while_app, drop_while_app by assumption.
  now apply parse_scope_text.
Qed.

Lemma parse_header_render (h : header_parts) :
  well_formed sep dchar h = true ->
  parse_header sep dchar (render h) = Some (captures_of h).
Proof.
  unfold well_formed, render, captures_of. intros H.
  apply andb_true_iff in H as [H Hd].
  apply andb_true_iff in H as [H Hsep].
  apply andb_true_iff in H as [Hty Hsc].
  change ([58] ++ [h_sep h] ++ h_description h)
    with (58 :: h_sep h :: h_description h).
  rewrite parse_header_prefix by assumption.
  unfold parse_tail, nonempty_all in *. rewrite Hsep. simpl.
  rewrite Hd. destruct (h_breaking h), (h_scope h); reflexivity.
Qed.

Lemma parse_tail_inv (r : str) (caps res : captures) :
  parse_tail sep dchar r caps = Some res ->
  exists w d, r = 58 :: w :: d /\ sep w = true
              /\ nonempty_all dchar d = true /\ res = (4%nat, d) :: caps.
Proof.
  unfold parse_tail, nonempty_all.
  destruct r as [|c [|w d]]; try discriminate.
  destruct (N.eqb_spec c 58) as [->|]; [|discriminate].
  destruct (sep w) eqn:Hw; [|discriminate]. simpl.
  destruct (truthy d && forallb dchar d) eqn:E; [|discriminate].
  intros [= <-]. exists w, d. repeat split; auto.
Qed.

Lemma parse_bang_inv (r : str) (caps res : captures) :
  parse_bang sep dchar r caps = Some res ->
  exists b w d, r = bang_text b ++ 58 :: w :: d /\ sep w = true
                /\ nonempty_all dchar d = true
                /\ res = (4%nat, d) :: bang_captures b ++ caps.
Proof.
  unfold parse_bang. destruct r as [|c r]; [discriminate|].
  destruct (N.eqb_spec c 33) as [->|]; intros H;
    apply parse_tail_inv in H as (w & d & Hr & Hw & Hd & ->).
  - exists true, w, d. subst r. repeat split; auto.
  - exists false, w, d. repeat split; auto.
Qed.

Lemma parse_scope_inv (r : str) (caps res : captures) :
  parse_scope sep dchar r caps = Some res ->
  exists sc b w d,
    r = scope_text sc ++ bang_text b ++ 58 :: w :: d
    /\ scope_ok sc = true /\ sep w = true /\ nonempty_all dchar d = true
    /\ res = (4%nat, d) :: bang_captures b ++ scope_captures sc ++ caps.
Proof.
  unfold parse_scope. destruct r as [|c r2]; [discriminate|].
  destruct (N.eqb_spec c 40) as [->|].
  - destruct (take_while is_scope_char r2) as [|y sc] eqn:Hsc; [discriminate|].
    destruct (drop_while is_scope_char r2) as [|p r3] eqn:Hr3; [discriminate|].
    destruct (N.eqb_spec p 41) as [->|]; [|discriminate].
    intros H. apply parse_bang_inv in H as (b & w & d & -> & Hw & Hd & ->).
    exists (Some (y :: sc)), b, w, d. repeat split; auto.
    + simpl. rewrite <- (take_drop_while is_scope_char r2), Hsc, Hr3.
      simpl. now rewrite <- app_assoc.
    + simpl. unfold nonempty_all. simpl truthy.
      rewrite <- Hsc. apply take_while_all.
  - intros H. apply parse_bang_inv in H as (b & w & d & Hr & Hw & Hd & ->).
    exists None, b, w, d. repeat split; auto.
Qed.

Lemma parse_header_inv (s : str) (caps : captures) :
  parse_header sep dchar s = Some caps ->
  exists h, well_formed sep dchar h = true /\ s = render h
            /\ caps = captures_of h.
Proof.
  unfold parse_header.
  destruct (take_while is_word_char s) as [|x ty] eqn:Hty; [discriminate|].
  intros H.
  apply parse_scope_inv in H as (sc & b & w & d & Hr & Hsc & Hw & Hd & ->).
  exists {| h_type := x :: ty; h_scope := sc; h_breaking := b;
            h_sep := w; h_description := d |}.
  unfold well_formed, render, captures_of; simpl. split; [|split].
  - unfold nonempty_all at 1. simpl truthy. rewrite <- Hty, take_while_all.
    fold (scope_ok sc). now rewrite Hsc, Hw, Hd.
  - rewrite <- (take_drop_while is_word_char s) at 1. now rewrite Hty, Hr.
  - destruct b, sc; reflexivity.
Qed.

(** The pattern accepts exactly the lines of the grammar. *)
Lemma match_header_grammar (s : str) :
  (exists caps, match_anchored (header_pattern sep dchar) s = Some caps)
  <-> Grammar sep dchar s.
Proof.
  rewrite match_header_pattern. split.
  - intros [caps H]. apply parse_header_inv in H as (h & Hwf & Hs & _).
    now exists h.
  - intros (h & Hwf & ->). exists (captures_of h).
    now apply parse_header_render.
Qed.

End HeaderGrammar.

(* ================================================================== *)
(** * The validator *)
(* ================================================================== *)

Lemma group_type (h : header_parts) :
  group 1 (captures_of h) = Some (h_type h).
Proof. unfold captures_of. destruct (h_breaking h), (h_scope h); reflexivity. Qed.

Lemma group_description (h : header_parts) :
  group 4 (captures_of h) = Some (h_description h).
Proof. reflexivity. Qed.

Lemma render_truthy (h : header_parts) :
  well_formed is_white_space is_dot_char h = true -> truthy (render h) = true.
Proof.
  unfold well_formed, render. intros H.
  apply andb_true_iff in H as [H _]. apply andb_true_iff in H as [H _].
  apply andb_true_iff in H as [H _].
  destruct (nonempty_all_inv _ _ H) as (c & t & -> & _). reflexivity.
Qed.

(** The validator on a line of the grammar: only the type is left to
    check. *)
Lemma validate_render (message : str) (h : header_parts) :
  well_formed is_white_space is_dot_char h = true ->
  header_of message = render h ->
  validateConventionalCommitHeader message =
  if array_includes CONVENTIONAL_COMMIT_TYPES (h_type h)
  then VALID else invalid (E_TYPE (h_type h)).
Proof.
  intros Hwf Hh. unfold validateConventionalCommitHeader.
  fold (header_of message). rewrite Hh, (render_truthy h Hwf).
  change (negb true) with false. cbv iota.
  unfold CONVENTIONAL_COMMIT_HEADER_REGEX.
  rewrite match_header_pattern, (parse_header_render _ _ h Hwf).
  cbv iota beta zeta. rewrite group_type, group_description.
  destruct (array_includes CONVENTIONAL_COMMIT_TYPES (h_type h));
    [|reflexivity].
  unfold well_formed in Hwf. apply andb_true_iff in Hwf as [_ Hd].
  unfold nonempty_all in Hd. apply andb_true_iff in Hd as [-> _].
  reflexivity.
Qed.

(** The four ways the validator can answer. *)
Lemma validate_cases (message : str) :
  (header_of message = []
   /\ validateConventionalCommitHeader message = invalid E_EMPTY)
  \/ (~ CodeGrammar (header_of message)
      /\ validateConventionalCommitHeader message = invalid E_FORMAT)
  \/ (exists h, well_formed is_white_space is_dot_char h = true
                /\ header_of message = render h
                /\ array_includes CONVENTIONAL_COMMIT_TYPES (h_type h) = false
                /\ validateConventionalCommitHeader message
                   = invalid (E_TYPE (h_type h)))
  \/ (exists h, well_formed is_white_space is_dot_char h = true
                /\ header_of message = render h
                /\ array_includes CONVENTIONAL_COMMIT_TYPES (h_type h) = true
                /\ validateConventionalCommitHeader message = VALID).
Proof.
  destruct (header_of message) as [|c hd] eqn:Hh.
  - left. split; [reflexivity|].
    unfold validateConventionalCommitHeader. fold (header_of message).
    now rewrite Hh.
  - right.
    destruct (parse_header is_white_space is_dot_char (c :: hd))
      as [caps|] eqn:Hp.
    + right. apply parse_header_inv in Hp as (h & Hwf & Hr & _).
      rewrite <- Hh in Hr. pose proof (validate_render message h Hwf Hr) as Hv.
      destruct (array_includes CONVENTIONAL_COMMIT_TYPES (h_type h)) eqn:Ht;
        [right | left]; exists h; rewrite Hh in *; auto.
    + left. split.
      * intros HG. apply match_header_grammar in HG as [caps HG].
        rewrite match_header_pattern in HG. congruence.
      * unfold validateConventionalCommitHeader. fold (header_of message).
        rewrite Hh. change (negb (truthy (c :: hd))) with false. cbv iota.
        unfold CONVENTIONAL_COMMIT_HEADER_REGEX.
        rewrite match_header_pattern, Hp. reflexivity.
Qed.

Lemma E_TYPE_nonempty (t : str) : E_TYPE t <> [].
Proof. discriminate. Qed.

(** An invalid answer carries an error text, a valid one none. *)
Lemma validate_error (message : str) :
  (isValid (validateConventionalCommitHeader message) = false ->
   exists e, validateConventionalCommitHeader message = invalid e /\ e <> [])
  /\ (isValid (validateConventionalCommitHeader message) = true ->
      validateConventionalCommitHeader message = VALID).
Proof.
  destruct (validate_cases message)
    as [[_ ->]|[[_ ->]|[(h & _ & _ & _ & ->)|(h & _ & _ & _ & ->)]]];
    split; intros H; try discriminate H; try reflexivity.
  - exists E_EMPTY. split; [reflexivity | discriminate].
  - exists E_FORMAT. split; [reflexivity | discriminate].
  - exists (E_TYPE (h_type h)). split; [reflexivity | apply E_TYPE_nonempty].
Qed.

Lemma validate_valid_iff (message : str) :
  isValid (validateConventionalCommitHeader message) = true <->
  exists h, well_formed is_white_space is_dot_char h = true
            /\ header_of message = render h
            /\ array_includes CONVENTIONAL_COMMIT_TYPES (h_type h) = true.
Proof.
  split.
  - intros H. destruct (validate_cases message)
      as [[_ E]|[[_ E]|[(h & _ & _ & _ & E)|(h & Hwf & Hr & Ht & E)]]];
      rewrite E in H; try discriminate H.
    exists h. auto.
  - intros (h & Hwf & Hr & Ht).
    rewrite (validate_render message h Hwf Hr), Ht. reflexivity.
Qed.

Example validate_bogus_type :
  validateConventionalCommitHeader (lit "bogus: nope")
  = invalid (lit "Invalid type 'bogus'. Must be one of: feat, fix, build, chore, ci, docs, style, refactor, perf, test.").
Proof. reflexivity. Qed.

Example validate_empty_message :
  validateConventionalCommitHeader [] = invalid E_EMPTY.
Proof. reflexivity. Qed.

Example validate_two_spaces :
  validateConventionalCommitHeader (lit "feat:  foo") = VALID
  /\ match_anchored CONVENTIONAL_COMMIT_HEADER_REGEX (lit "feat:  foo")
     = Some [ (4%nat, lit " foo"); (1%nat, lit "feat") ].
Proof. split; reflexivity. Qed.

Example validate_body_ignored :
  validateConventionalCommitHeader
    (lit "docs(readme): fix typo." ++ [NL] ++ lit "not: a header") = VALID.
Proof. reflexivity. Qed.

(** C2, as stated, at its own example: the answer is valid, but it has no
    [type], [scope] or [breaking] field to read. *)
Lemma validate_header_result_has_no_parts :
  isValid (validateConventionalCommitHeader MFA_MESSAGE) = true
  /\ prop "type" (validateConventionalCommitHeader MFA_MESSAGE) = None
  /\ prop "scope" (validateConventionalCommitHeader MFA_MESSAGE) = None
  /\ prop "breaking" (validateConventionalCommitHeader MFA_MESSAGE) = None.
Proof. vm_compute. auto. Qed.

(** C2, amended: on ["feat(auth)!: implement MFA"] the validator answers
    exactly [{ isValid: true }], while the pattern, inside the validator,
    captures [feat], [auth] and [!]; for every message found valid the
    answer is exactly [{ isValid: true }] and groups 1, 2 and 3 of the
    pattern's match are the type, the scope and the [!] marker of the header
    line, which reads type, optional parenthesised scope, optional [!],
    colon, one whitespace character, description. *)
Theorem validate_header_groups_are_header_substrings :
  (validateConventionalCommitHeader MFA_MESSAGE = VALID
   /\ match_anchored CONVENTIONAL_COMMIT_HEADER_REGEX (header_of MFA_MESSAGE)
      = Some [ (4%nat, lit "implement MFA"); (3%nat, lit "!");
               (2%nat, lit "auth"); (1%nat, lit "feat") ])
  /\ forall message,
       isValid (validateConventionalCommitHeader message) = true ->
       validateConventionalCommitHeader message = VALID
       /\ exists h,
            header_of message = render h
            /\ match_anchored CONVENTIONAL_COMMIT_HEADER_REGEX
                              (header_of message) = Some (captures_of h)
            /\ group 1 (captures_of h) = Some (h_type h)
            /\ group 2 (captures_of h) = h_scope h
            /\ group 3 (captures_of h)
               = if h_breaking h then Some (lit "!") else None.
Proof.
  split; [split; vm_compute; reflexivity|].
  intros message H. split; [now apply validate_error|].
  apply validate_valid_iff in H as (h & Hwf & Hr & _).
  exists h. split; [exact Hr|]. split.
  - rewrite Hr. unfold CONVENTIONAL_COMMIT_HEADER_REGEX.
    rewrite match_header_pattern. now apply parse_header_render.
  - unfold captures_of.
    destruct (h_breaking h), (h_scope h); repeat split; reflexivity.
Qed.

Lemma validate_header_groups_witness :
  validateConventionalCommitHeader (lit "fix: typo") = VALID
  /\ exists h,
       header_of (lit "fix: typo") = render h
       /\ match_anchored CONVENTIONAL_COMMIT_HEADER_REGEX
                         (header_of (lit "fix: typo")) = Some (captures_of h)
       /\ group 1 (captures_of h) = Some (h_type h)
       /\ group 2 (captures_of h) = h_scope h
       /\ group 3 (captures_of h)
          = if h_breaking h then Some (lit "!") else None.
Proof.
  apply (proj2 validate_header_groups_are_header_substrings (lit "fix: typo")).
  vm_compute. reflexivity.
Defined.

(** C3, as stated, against the grammar in the specification's words: a tab
    after the colon is accepted although the grammar asks for a space, and a
    description with a carriage return is refused although the grammar
    allows any character. *)
Lemma validate_header_differs_from_spec_grammar :
  (isValid (validateConventionalCommitHeader TAB_MESSAGE) = true
   /\ ~ SpecGrammar (header_of TAB_MESSAGE))
  /\ (isValid (validateConventionalCommitHeader CR_MESSAGE) = false
      /\ exists h, well_formed (fun c => c =? SPACE) (fun _ => true) h = true
                   /\ header_of CR_MESSAGE = render h
                   /\ array_includes CONVENTIONAL_COMMIT_TYPES (h_type h)
                      = true).
Proof.
  split; split.
  - vm_compute. reflexivity.
  - intros HG. apply match_header_grammar in HG as [caps HG].
    vm_compute in HG. discriminate HG.
  - vm_compute. reflexivity.
  - exists {| h_type := lit "feat"; h_scope := None; h_breaking := false;
              h_sep := SPACE; h_description := lit "a" ++ [CR] ++ lit "b" |}.
    vm_compute. auto.
Qed.

(** C3, amended: a message is found valid exactly when its trimmed first
    line reads type, optional parenthesised scope, optional [!], colon, one
    whitespace character, description without line terminators, and the
    type is one of the ten allowed ones; an invalid answer carries a
    non-empty error text and a valid answer carries none. *)
Theorem validate_header_valid_iff_code_grammar (message : str) :
  (isValid (validateConventionalCommitHeader message) = true <->
   exists h, well_formed is_white_space is_dot_char h = true
             /\ header_of message = render h
             /\ In (h_type h) CONVENTIONAL_COMMIT_TYPES)
  /\ (isValid (validateConventionalCommitHeader message) = false ->
      exists e, prop "error" (validateConventionalCommitHeader message)
                = Some (VString e) /\ e <> [])
  /\ (isValid (validateConventionalCommitHeader message) = true ->
      prop "error" (validateConventionalCommitHeader message) = None).
Proof.
  split; [|split].
  - rewrite validate_valid_iff. split; intros (h & Hwf & Hr & Ht);
      exists h; (split; [|split]); auto; now apply array_includes_In.
  - intros H. apply validate_error in H as (e & -> & He). now exists e.
  - intros H. apply validate_error in H as ->. reflexivity.
Qed.

Lemma validate_header_valid_iff_code_grammar_witness :
  (isValid (validateConventionalCommitHeader (lit "bogus: nope")) = false ->
   exists e, prop "error" (validateConventionalCommitHeader (lit "bogus: nope"))
             = Some (VString e) /\ e <> [])
  /\ isValid (validateConventionalCommitHeader (lit "bogus: nope")) = false.
Proof.
  split.
  - exact (proj1 (proj2 (validate_header_valid_iff_code_grammar
                           (lit "bogus: nope")))).
  - vm_compute. reflexivity.
Defined.

(** C4, as stated: a tab is not "exactly one space", yet the header is
    accepted. *)
Lemma validate_header_accepts_tab_separator :
  header_of TAB_MESSAGE = lit "feat" ++ lit ":" ++ [TAB] ++ lit "foo"
  /\ [TAB] <> [SPACE]
  /\ isValid (validateConventionalCommitHeader TAB_MESSAGE) = true.
Proof. repeat split; try (vm_compute; reflexivity). discriminate. Qed.

(** C4, amended: a header of the form type[(scope)][!]:rest is accepted
    exactly when the type is an allowed one and rest starts with one
    whitespace character (a space, a tab or any other character [\s]
    matches) followed by one or more characters other than line
    terminators; so it is refused when nothing, or a character that is not
    whitespace, follows the colon. *)
Theorem validate_header_needs_whitespace_after_colon
        (message ty : str) (sc : option str) (b : bool) (rest : str) :
  header_of message = ty ++ scope_text sc ++ bang_text b ++ [58] ++ rest ->
  nonempty_all is_word_char ty = true ->
  scope_ok sc = true ->
  (isValid (validateConventionalCommitHeader message) = true <->
   In ty CONVENTIONAL_COMMIT_TYPES
   /\ exists w d, rest = w :: d /\ is_white_space w = true
                  /\ nonempty_all is_dot_char d = true)
  /\ (stops is_white_space rest ->
      isValid (validateConventionalCommitHeader message) = false).
Proof.
  intros Hh Hty Hsc.
  assert (Hiff :
    isValid (validateConventionalCommitHeader message) = true <->
    In ty CONVENTIONAL_COMMIT_TYPES
    /\ exists w d, rest = w :: d /\ is_white_space w = true
                   /\ nonempty_all is_dot_char d = true).
  { rewrite validate_valid_iff. split.
    - intros (h & Hwf & Hr & Ht).
      pose proof (parse_header_render _ _ h Hwf) as Hp.
      rewrite <- Hr, Hh in Hp.
      change ([58] ++ rest) with (58 :: rest) in Hp.
      rewrite parse_header_prefix in Hp by assumption.
      apply parse_tail_inv in Hp as (w & d & [= ->] & Hw & Hd & Hc).
      assert (h_type h = ty) as <-.
      { pose proof (group_type h) as G. rewrite Hc in G.
        destruct b, sc; simpl in G; congruence. }
      split; [now apply array_includes_In | now exists w, d].
    - intros (Hin & w & d & -> & Hw & Hd).
      exists {| h_type := ty; h_scope := sc; h_breaking := b; h_sep := w;
                h_description := d |}.
      split; [|split].
      + unfold well_formed.
        cbn [h_type h_scope h_sep h_description].
        now rewrite Hty, Hsc, Hw, Hd.
      + exact Hh.
      + now apply array_includes_In. }
  split; [exact Hiff|].
  intros Hstop.
  destruct (isValid (validateConventionalCommitHeader message)) eqn:E;
    [|reflexivity].
  destruct (proj1 Hiff eq_refl) as (_ & w & d & -> & Hw & _).
  simpl in Hstop. congruence.
Qed.

Lemma validate_header_needs_whitespace_witness :
  isValid (validateConventionalCommitHeader (lit "feat(api)!:foo")) = false.
Proof.
  apply (validate_header_needs_whitespace_after_colon
           (lit "feat(api)!:foo") (lit "feat") (Some (lit "api")) true
           (lit "foo")); reflexivity.
Defined.

(* ================================================================== *)
(** * Trimming *)
(* ================================================================== *)

Lemma trimEnd_nil_iff (s : str) : trimEnd s = [] <-> blank s = true.
Proof.
  unfold blank. induction s as [|c s IH]; simpl; [tauto|].
  destruct (trimEnd s) as [|x t].
  - destruct (is_white_space c); simpl.
    + split; [intros _; now apply IH | reflexivity].
    + split; discriminate.
  - split; [discriminate|]. intros H. apply andb_true_iff in H as [_ H].
    apply IH in H. discriminate H.
Qed.

Lemma trimStart_blank (s : str) : blank (trimStart s) = blank s.
Proof.
  unfold blank. induction s as [|c s IH]; simpl; [reflexivity|].
  destruct (is_white_space c) eqn:E; simpl; [exact IH | now rewrite E].
Qed.

Lemma trim_nil_iff (s : str) : trim s = [] <-> blank s = true.
Proof. unfold trim. now rewrite trimEnd_nil_iff, trimStart_blank. Qed.

Lemma truthy_trim (s : str) : truthy (trim s) = negb (blank s).
Proof.
  destruct (blank s) eqn:E.
  - apply trim_nil_iff in E. now rewrite E.
  - destruct (trim s) eqn:T; [|reflexivity].
    apply trim_nil_iff in T. congruence.
Qed.

Lemma trimEnd_cons (c : N) (s : str) :
  is_white_space c = false -> trimEnd (c :: s) = c :: trimEnd s.
Proof. intros H. simpl. rewrite H. now destruct (trimEnd s). Qed.


Lemma trimEnd_app (a b : str) :
  blank b = false -> trimEnd (a ++ b) = a ++ trimEnd b.
Proof.
  intros Hb. induction a as [|c a IH]; simpl; [reflexivity|].
  rewrite IH. destruct (a ++ trimEnd b) eqn:E; [|reflexivity].
  apply app_eq_nil in E as [_ E]. apply trimEnd_nil_iff in E. congruence.
Qed.


Lemma trim_cons (c : N) (s : str) :
  is_white_space c = false -> trim (c :: s) = c :: trimEnd s.
Proof. intros H. unfold trim. simpl. rewrite H. now apply trimEnd_cons. Qed.


Lemma filter_nil_forallb {A} (f : A -> bool) (l : list A) :
  filter f l = [] <-> forallb (fun x => negb (f x)) l = true.
Proof.
  induction l as [|x l IH]; simpl; [tauto|].
  destruct (f x); simpl; [split; discriminate | exact IH].
Qed.

Lemma untracked_lines_nil (out : str) :
  untracked_lines out = [] <-> forallb blank (split_nl out) = true.
Proof.
  unfold untracked_lines. rewrite filter_nil_forallb.
  assert (E : forall ls : list str,
             forallb (fun x => negb (truthy (trim x))) ls = forallb blank ls).
  { induction ls as [|l ls IH]; simpl; [reflexivity|].
    now rewrite truthy_trim, negb_involutive, IH. }
  now rewrite E.
Qed.


Lemma length_positive {A} (l : list A) :
  (0 <? List.length l)%nat = negb (match l with [] => true | _ => false end).
Proof. destruct l; reflexivity. Qed.

(* ================================================================== *)
(** * The diff aggregator *)
(* ================================================================== *)

Lemma has_changes_untracked (out : str) :
  (0 <? List.length (untracked_lines out))%nat
  = negb (forallb blank (split_nl out)).
Proof.
  rewrite length_positive.
  destruct (forallb blank (split_nl out)) eqn:E.
  - apply untracked_lines_nil in E. now rewrite E.
  - destruct (untracked_lines out) eqn:U; [|reflexivity].
    apply untracked_lines_nil in U. congruence.
Qed.

(** [render_diff], block by block. *)
Lemma render_diff_blocks (s u t : str) :
  render_diff s u t =
  if has_changes s u t
  then trim ((if negb (blank s) then staged_block s else [])
             ++ (if negb (blank u) then unstaged_block u else [])
             ++ (if negb (forallb blank (split_nl t))
                 then untracked_block t else []))
  else NO_CHANGES.
Proof.
  unfold render_diff, has_changes.
  rewrite !truthy_trim, has_changes_untracked.
  fold (staged_block s). fold (unstaged_block u).
  change (lit "=== UNTRACKED FILES ===" ++ [NL]
          ++ join [NL] (untracked_lines t) ++ [NL])
    with (untracked_block t).
  destruct (blank s), (blank u), (forallb blank (split_nl t));
    cbn [negb orb app];
    rewrite ?app_nil_r, <- ?app_assoc; reflexivity.
Qed.

Lemma starts_banner_app (r y : str) :
  starts_banner r -> starts_banner (r ++ y).
Proof.
  intros (c & rest & -> & Hc). exists c, (rest ++ y). split; [|exact Hc].
  now rewrite <- app_assoc.
Qed.

Lemma staged_block_banner (s : str) : starts_banner (staged_block s).
Proof.
  exists 83, (lit "TAGED CHANGES ===" ++ [NL] ++ trim s ++ [NL; NL]).
  split; reflexivity.
Qed.

Lemma unstaged_block_banner (u : str) : starts_banner (unstaged_block u).
Proof.
  exists 85, (lit "NSTAGED CHANGES ===" ++ [NL] ++ trim u ++ [NL; NL]).
  split; reflexivity.
Qed.

Lemma untracked_block_banner (t : str) : starts_banner (untracked_block t).
Proof.
  exists 85, (lit "NTRACKED FILES ===" ++ [NL]
              ++ join [NL] (untracked_lines t) ++ [NL]).
  split; reflexivity.
Qed.

(** Trimming leaves the banner in place. *)
Lemma trim_banner (r : str) :
  starts_banner r -> startsWith (lit "=== ") (trim r) = true.
Proof.
  intros (c & rest & -> & Hc).
  change (lit "=== " ++ c :: rest) with (61 :: 61 :: 61 :: 32 :: c :: rest).
  rewrite trim_cons by reflexivity. rewrite !trimEnd_cons by reflexivity.
  change (trimEnd (32 :: c :: rest))
    with (match trimEnd (c :: rest) with
          | [] => []
          | t => 32 :: t
          end).
  rewrite (trimEnd_cons c rest Hc). reflexivity.
Qed.

Lemma render_diff_changes (s u t : str) :
  has_changes s u t = true ->
  startsWith (lit "=== ") (render_diff s u t) = true.
Proof.
  intros H. rewrite render_diff_blocks, H. apply trim_banner.
  unfold has_changes in H.
  destruct (blank s); cbn [negb orb app] in *;
    [|apply starts_banner_app, staged_block_banner].
  destruct (blank u); cbn [negb orb app] in *;
    [|apply starts_banner_app, unstaged_block_banner].
  rewrite H. apply untracked_block_banner.
Qed.

Lemma render_diff_empty (s u t : str) :
  has_changes s u t = false -> render_diff s u t = NO_CHANGES.
Proof. intros H. now rewrite render_diff_blocks, H. Qed.

(** A text that opens with ["=== "] is neither the sentinel nor a failure
    text. *)
Lemma banner_not_other (r : str) :
  startsWith (lit "=== ") r = true ->
  str_eqb r NO_CHANGES = false /\ startsWith DIFF_ERROR_PREFIX r = false.
Proof.
  destruct r as [|c r]; [discriminate|].
  change (startsWith (lit "=== ") (c :: r))
    with ((61 =? c) && startsWith (lit "== ") r).
  intros H. apply andb_true_iff in H as [H _]. apply N.eqb_eq in H as <-.
  split; reflexivity.
Qed.

Lemma trim_header_app (h x : str) :
  stops is_white_space h -> h <> [] -> blank x = false ->
  trim (h ++ x) = h ++ trimEnd x.
Proof.
  destruct h as [|c h]; [congruence|]. simpl. intros Hc _ Hx.
  rewrite trim_cons by assumption. now rewrite trimEnd_app.
Qed.


Lemma getGitDiff_answers (w : host) (cwd : str) (st : StateService)
      (log : list call) (so uo to : exec_output) :
  answers w log cwd so uo to ->
  getGitDiff w cwd st log
  = (Return (render_diff (stdout so) (stdout uo) (stdout to)), st,
     log ++ diff_calls cwd).
Proof.
  intros (H1 & H2 & H3).
  unfold getGitDiff, try_catch, bind, execPromise, ret.
  rewrite H1. cbn [of_sum]. rewrite H2. cbn [of_sum]. rewrite H3.
  cbn [of_sum]. unfold diff_calls. now rewrite <- !app_assoc.
Qed.

Lemma getGitDiff_failure (w : host) (cwd : str) (st : StateService)
      (log : list call) (e : js_error) (made : list call) :
  first_failure w log cwd e made ->
  getGitDiff w cwd st log = (Return (diff_failure e), st, log ++ made).
Proof.
  intros H. unfold getGitDiff, try_catch, bind, execPromise, ret, diff_failure.
  destruct H as [e H1 | so e H1 H2 | so uo e H1 H2 H3].
  - rewrite H1. cbn [of_sum]. destruct (instanceof_Error e); reflexivity.
  - rewrite H1. cbn [of_sum]. rewrite H2. cbn [of_sum].
    rewrite <- !app_assoc. destruct (instanceof_Error e); reflexivity.
  - rewrite H1. cbn [of_sum]. rewrite H2. cbn [of_sum]. rewrite H3.
    cbn [of_sum]. unfold diff_calls. rewrite <- !app_assoc.
    destruct (instanceof_Error e); reflexivity.
Qed.

(** The three calls either all succeed or there is a first one that
    fails. *)
Lemma diff_calls_cases (w : host) (log : list call) (cwd : str) :
  (exists so uo to, answers w log cwd so uo to)
  \/ (exists e made, first_failure w log cwd e made).
Proof.
  destruct (exec w log GIT_DIFF_STAGED cwd) as [e|so] eqn:H1.
  { right. exists e, [Exec GIT_DIFF_STAGED cwd]. now constructor. }
  destruct (exec w (log ++ [Exec GIT_DIFF_STAGED cwd]) GIT_DIFF cwd)
    as [e|uo] eqn:H2.
  { right. eexists e, _. eapply unstaged_fails; eassumption. }
  destruct (exec w ((log ++ [Exec GIT_DIFF_STAGED cwd]) ++ [Exec GIT_DIFF cwd])
                 GIT_LS_FILES cwd) as [e|to] eqn:H3.
  { right. eexists e, _. eapply untracked_fails; eassumption. }
  left. exists so, uo, to. repeat split; assumption.
Qed.

Lemma diff_failure_prefix (e : js_error) :
  startsWith DIFF_ERROR_PREFIX (diff_failure e) = true
  /\ startsWith (lit "=== ") (diff_failure e) = false
  /\ str_eqb (diff_failure e) NO_CHANGES = false.
Proof. repeat split; reflexivity. Qed.

(** Every run of [getGitDiff] produces one variant and returns its text. *)
Lemma getGitDiff_produces (w : host) (cwd : str) (st : StateService)
      (log : list call) :
  exists d made,
    produces w log cwd d made
    /\ getGitDiff w cwd st log = (Return (diff_text d), st, log ++ made).
Proof.
  destruct (diff_calls_cases w log cwd) as [(so & uo & to & H)|(e & made & H)].
  - destruct (has_changes (stdout so) (stdout uo) (stdout to)) eqn:Hc.
    + eexists _, _. split; [eapply produces_changes; eassumption|].
      now apply getGitDiff_answers.
    + eexists _, _. split; [eapply produces_empty; eassumption|].
      rewrite (getGitDiff_answers _ _ _ _ _ _ _ H).
      now rewrite render_diff_empty.
  - eexists _, _. split; [eapply produces_failure; eassumption|].
    now apply getGitDiff_failure.
Qed.

(** The caller's reading gives back the variant that was produced. *)
Lemma classify_produced (w : host) (log : list call) (cwd : str)
      (d : DiffResult) (made : list call) :
  produces w log cwd d made -> classify (diff_text d) = d.
Proof.
  intros [so uo to _ Hc | so uo to _ Hc | e made' _]; unfold classify.
  - reflexivity.
  - apply render_diff_changes, banner_not_other in Hc as [H1 H2].
    cbn [diff_text]. now rewrite H1, H2.
  - destruct (diff_failure_prefix e) as (H1 & _ & H3).
    cbn [diff_text]. now rewrite H3, H1.
Qed.

(* ================================================================== *)
(** * The project gate *)
(* ================================================================== *)

Lemma gate_closed (st : StateService) :
  initialized st = false ->
  negb (truthy_opt (_projectPath st)) || negb (_isValidGitRepo st) = true.
Proof.
  unfold initialized.
  destruct (truthy_opt (_projectPath st)), (_isValidGitRepo st);
    simpl; congruence.
Qed.

Lemma gate_open (st : StateService) :
  initialized st = true ->
  negb (truthy_opt (_projectPath st)) || negb (_isValidGitRepo st) = false.
Proof.
  unfold initialized.
  destruct (truthy_opt (_projectPath st)), (_isValidGitRepo st);
    simpl; congruence.
Qed.

(** C1: a gated operation invoked while the project context is empty or
    not validated returns the NotInitialized envelope (error flag set, text
    naming initialize-project) and issues no file-system or git call: the
    log of calls and the context are left as they were. *)
Theorem gated_operation_not_initialized
        (w : host) (op : gated_operation) (st : StateService)
        (log : list call) :
  initialized st = false ->
  run_gated w op st log = (Return NOT_INITIALIZED, st, log)
  /\ isError NOT_INITIALIZED = true
  /\ includes (lit "initialize-project") (text_of NOT_INITIALIZED) = true.
Proof.
  intros H. apply gate_closed in H. split; [|split; reflexivity].
  destruct op; cbn [run_gated];
    [ unfold GetGitDiff.execute
    | unfold GenerateCommitPrompt.execute
    | unfold CreateCommit.execute ];
    unfold bind, get_state; cbv zeta; rewrite H; reflexivity.
Qed.

Lemma gated_operation_not_initialized_witness :
  run_gated (sample_host [] [] []) (create_commit MFA_MESSAGE true true)
            initial_state []
  = (Return NOT_INITIALIZED, initial_state, []).
Proof.
  apply (gated_operation_not_initialized
           (sample_host [] [] []) (create_commit MFA_MESSAGE true true)
           initial_state []).
  reflexivity.
Defined.

(* ================================================================== *)
(** * initialize-project *)
(* ================================================================== *)

(** C5: initialize-project always returns an envelope, and either it
    reports an error, not every check passed and the context is exactly
    what it was, or every one of the checks (path resolution, directory,
    work tree) passed and the context is now the resolved path with the
    validated flag set, whatever it held before. *)
Theorem initialize_project_atomic
        (w : host) (rawPath : str) (st : StateService) (log : list call) :
  exists result st' log',
    InitializeProject.execute w rawPath st log = (Return result, st', log')
    /\ ((isError result = true /\ st' = st
         /\ ~ exists resolved, checks_pass w log rawPath resolved)
        \/ (exists resolved,
              checks_pass w log rawPath resolved
              /\ isError result = false
              /\ result = success (lit "Successfully initialized git project at: "
                                   ++ resolved)
              /\ st' = {| _projectPath := Some resolved;
                          _isValidGitRepo := true |})).
Proof.
  unfold InitializeProject.execute, try_catch, bind, resolve, stat,
    checkGitRepo, execPromise, ret, throw, put_state, checks_pass.
  destruct (path_resolve w rawPath) as [e|resolved] eqn:Hres; cbn [of_sum].
  { eexists _, _, _. split; [reflexivity|]. left. repeat split.
    intros (r & [=] & _). }
  destruct (fs_stat w log resolved) as [e|s] eqn:Hstat; cbn [of_sum].
  { eexists _, _, _. split; [reflexivity|]. left. repeat split.
    intros (r & [= <-] & (s & Hs & _) & _). congruence. }
  destruct (isDirectory s) eqn:Hdir; cbn [negb].
  2:{ eexists _, _, _. split; [reflexivity|]. left. repeat split.
      intros (r & [= <-] & (s' & Hs & Hd) & _). congruence. }
  unfold try_catch, bind, execPromise, ret.
  destruct (exec w (log ++ [Stat resolved]) GIT_REV_PARSE resolved)
    as [e|o] eqn:Hgit; cbn [of_sum negb].
  { eexists _, _, _. split; [reflexivity|]. left. repeat split.
    intros (r & [= <-] & _ & (o & Ho)). congruence. }
  eexists _, _, _. split; [reflexivity|]. right. exists resolved.
  repeat split; eauto.
Qed.

Example reinitialize_overwrites :
  InitializeProject.execute (sample_host [] [] []) (lit "/other")
                            sample_state []
  = (Return (success (lit "Successfully initialized git project at: /other")),
     initializeProject (lit "/other") true,
     [ Stat (lit "/other"); Exec GIT_REV_PARSE (lit "/other") ]).
Proof. reflexivity. Qed.

Example initialize_outside_work_tree :
  InitializeProject.execute (broken_host (lit "not a git repository"))
                            (lit "/tmp") initial_state []
  = (Return (failure (lit "Error: The path " ++ [DQUOTE] ++ lit "/tmp"
                      ++ [DQUOTE]
                      ++ lit " is not a git repository. Initialize with 'git init' if needed.")),
     initial_state,
     [ Stat (lit "/tmp"); Exec GIT_REV_PARSE (lit "/tmp") ]).
Proof. reflexivity. Qed.

(* ================================================================== *)
(** * The aggregator and its callers *)
(* ================================================================== *)



(** C7: when one of the three calls fails, the aggregator returns the
    failure text made from the first failure alone (its message, for the
    Error objects git calls are rejected with), no call is issued after
    the failing one, and the text is not an aggregate: it has the failure
    prefix and no block header. *)
Theorem diff_aggregator_fails_fast
        (w : host) (cwd : str) (st : StateService) (log : list call)
        (e : js_error) (made : list call) :
  first_failure w log cwd e made ->
  getGitDiff w cwd st log = (Return (diff_failure e), st, log ++ made)
  /\ startsWith DIFF_ERROR_PREFIX (diff_failure e) = true
  /\ startsWith (lit "=== ") (diff_failure e) = false
  /\ (instanceof_Error e = true ->
      diff_failure e = lit "Error retrieving git diff: " ++ message e).
Proof.
  intros H. split; [now apply getGitDiff_failure|].
  split; [reflexivity|]. split; [reflexivity|].
  intros He. unfold diff_failure. now rewrite He.
Qed.

Lemma diff_aggregator_fails_fast_witness :
  getGitDiff (broken_host (lit "spawn git ENOENT")) REPO sample_state []
  = (Return (lit "Error retrieving git diff: spawn git ENOENT"),
     sample_state, [Exec GIT_DIFF_STAGED REPO]).
Proof.
  apply (diff_aggregator_fails_fast
           (broken_host (lit "spawn git ENOENT")) REPO sample_state []
           (new_Error (lit "spawn git ENOENT")) [Exec GIT_DIFF_STAGED REPO]).
  apply staged_fails. reflexivity.
Defined.

Lemma get_git_diff_reply_correct (w : host) (st : StateService)
      (log : list call) (d : DiffResult) (made : list call) :
  initialized st = true ->
  produces w log (narrowed (_projectPath st)) d made ->
  GetGitDiff.execute w st log
  = (Return (get_git_diff_reply d), st, log ++ made).
Proof.
  intros Hi Hp. unfold GetGitDiff.execute, bind, get_state. cbv zeta.
  rewrite (gate_open st Hi). unfold try_catch, bind.
  pose proof (getGitDiff_answers w (narrowed (_projectPath st)) st log) as Ha.
  pose proof (getGitDiff_failure w (narrowed (_projectPath st)) st log) as Hf.
  destruct Hp as [so uo to H Hc | so uo to H Hc | e made H].
  - rewrite (Ha _ _ _ H), (render_diff_empty _ _ _ Hc). reflexivity.
  - rewrite (Ha _ _ _ H).
    destruct (banner_not_other _ (render_diff_changes _ _ _ Hc)) as [_ ->].
    reflexivity.
  - rewrite (Hf _ _ H). destruct (diff_failure_prefix e) as (-> & _).
    reflexivity.
Qed.

Lemma generate_commit_prompt_reply_correct (w : host) (scope : option str)
      (st : StateService) (log : list call) (d : DiffResult)
      (made : list call) :
  initialized st = true ->
  produces w log (narrowed (_projectPath st)) d made ->
  GenerateCommitPrompt.execute w scope st log
  = (Return (generate_commit_prompt_reply w scope d), st, log ++ made).
Proof.
  intros Hi Hp. unfold GenerateCommitPrompt.execute, bind, get_state.
  cbv zeta. rewrite (gate_open st Hi). unfold try_catch, bind.
  pose proof (getGitDiff_answers w (narrowed (_projectPath st)) st log) as Ha.
  pose proof (getGitDiff_failure w (narrowed (_projectPath st)) st log) as Hf.
  destruct Hp as [so uo to H Hc | so uo to H Hc | e made H].
  - rewrite (Ha _ _ _ H), (render_diff_empty _ _ _ Hc). reflexivity.
  - rewrite (Ha _ _ _ H).
    destruct (banner_not_other _ (render_diff_changes _ _ _ Hc)) as [-> ->].
    reflexivity.
  - rewrite (Hf _ _ H).
    destruct (diff_failure_prefix e) as (-> & _ & ->). reflexivity.
Qed.

(** C10: every run of the aggregator produces one of the three variants
    and returns its text; a Changes text begins with ["=== "], so it is
    neither the sentinel of the empty result nor a text with the failure
    prefix; reading the returned text with the callers' tests gives back
    the variant that was produced, and get-git-diff and
    generate-commit-prompt answer by that variant. *)
Theorem diff_variants_are_distinguished
        (w : host) (cwd : str) (st : StateService) (log : list call)
        (scope : option str) :
  exists d made,
    produces w log cwd d made
    /\ getGitDiff w cwd st log = (Return (diff_text d), st, log ++ made)
    /\ (forall text, d = Changes text ->
          startsWith (lit "=== ") text = true
          /\ text <> NO_CHANGES
          /\ startsWith DIFF_ERROR_PREFIX text = false)
    /\ classify (diff_text d) = d
    /\ (initialized st = true -> cwd = narrowed (_projectPath st) ->
        GetGitDiff.execute w st log
        = (Return (get_git_diff_reply d), st, log ++ made)
        /\ GenerateCommitPrompt.execute w scope st log
           = (Return (generate_commit_prompt_reply w scope d), st,
              log ++ made)).
Proof.
  destruct (getGitDiff_produces w cwd st log) as (d & made & Hp & Hrun).
  exists d, made. split; [exact Hp|]. split; [exact Hrun|]. split; [|split].
  - intros text ->. inversion Hp as [| so uo to _ Hc |]; subst.
    pose proof (render_diff_changes _ _ _ Hc) as Hb.
    destruct (banner_not_other _ Hb) as [Hn Hf].
    repeat split; auto.
    intros E. rewrite E in Hn. discriminate Hn.
  - exact (classify_produced _ _ _ _ _ Hp).
  - intros Hi ->. split.
    + now apply get_git_diff_reply_correct.
    + now apply generate_commit_prompt_reply_correct.
Qed.

Lemma diff_variants_are_distinguished_witness :
  exists d made,
    produces (sample_host (lit "diff --git a/x b/x") [] []) [] REPO d made
    /\ GetGitDiff.execute (sample_host (lit "diff --git a/x b/x") [] [])
                          sample_state []
       = (Return (get_git_diff_reply d), sample_state, [] ++ made).
Proof.
  destruct (diff_variants_are_distinguished
              (sample_host (lit "diff --git a/x b/x") [] []) REPO
              sample_state [] None)
    as (d & made & Hp & _ & _ & _ & Hcall).
  exists d, made. split; [exact Hp|].
  exact (proj1 (Hcall eq_refl eq_refl)).
Defined.

(* ================================================================== *)
(** * create-commit *)
(* ================================================================== *)

Example commit_with_quotes :
  CreateCommit.commitCommand
    (lit "fix: say " ++ [DQUOTE] ++ lit "hi" ++ [DQUOTE])
  = lit "git commit -m " ++ [DQUOTE] ++ lit "fix: say "
    ++ [BACKSLASH; DQUOTE] ++ lit "hi" ++ [BACKSLASH; DQUOTE] ++ [DQUOTE].
Proof. reflexivity. Qed.

Example commit_unstaged_classified :
  CreateCommit.commit_error false
    {| instanceof_Error := true; message := lit "Command failed";
       code := None;
       stderr_of := Some (lit "Changes not staged for commit: changes not staged for commit");
       to_String := lit "Error: Command failed" |}
  = failure (lit "Error: There are unstaged changes. Use 'addAll: true' to include them or stage them manually before committing.").
Proof. reflexivity. Qed.

(** C9: with [validate] set and a header the validator refuses, the
    handler returns the validation error, which quotes the validator's
    error text and the message, and issues no call at all, neither
    [git add] nor [git commit], whatever [addAll] is: the log of calls and
    the context are unchanged. *)
Theorem create_commit_invalid_header_no_vcs_call
        (w : host) (message : str) (addAll : bool) (st : StateService)
        (log : list call) :
  initialized st = true ->
  isValid (validateConventionalCommitHeader message) = false ->
  exists e result,
    prop "error" (validateConventionalCommitHeader message)
    = Some (VString e)
    /\ CreateCommit.execute w message addAll true st log
       = (Return result, st, log)
    /\ isError result = true
    /\ text_of result
       = lit "Error: Commit message validation failed. " ++ e
         ++ lit " Provided message:" ++ [NL] ++ lit "---" ++ [NL]
         ++ message ++ [NL] ++ lit "---" ++ [NL]
         ++ lit "To commit anyway, use 'validate: false'.".
Proof.
  intros Hi Hv.
  destruct (proj1 (validate_error message) Hv) as (e & He & _).
  exists e, (CreateCommit.validation_failed
               (validateConventionalCommitHeader message) message).
  split; [now rewrite He|]. split; [|split].
  - unfold CreateCommit.execute, bind, get_state. cbv zeta.
    rewrite (gate_open st Hi), Hv. reflexivity.
  - reflexivity.
  - unfold CreateCommit.validation_failed. rewrite He. reflexivity.
Qed.

Lemma create_commit_invalid_header_witness :
  exists e result,
    prop "error" (validateConventionalCommitHeader (lit "bogus: nope"))
    = Some (VString e)
    /\ CreateCommit.execute (sample_host [] [] []) (lit "bogus: nope") true
                            true sample_state []
       = (Return result, sample_state, [])
    /\ isError result = true
    /\ text_of result
       = lit "Error: Commit message validation failed. " ++ e
         ++ lit " Provided message:" ++ [NL] ++ lit "---" ++ [NL]
         ++ lit "bogus: nope" ++ [NL] ++ lit "---" ++ [NL]
         ++ lit "To commit anyway, use 'validate: false'.".
Proof.
  apply (create_commit_invalid_header_no_vcs_call
           (sample_host [] [] []) (lit "bogus: nope") true sample_state []);
    reflexivity.
Defined.

Lemma split_nl_nonempty (s : str) : split_nl s <> [].
Proof.
  induction s as [|c s IH]; simpl; [discriminate|].
  destruct (c =? NL); [discriminate|].
  destruct (split_nl s); discriminate.
Qed.

(** Splitting on newlines and joining with newlines gives the text back. *)
Lemma join_split_nl (s : str) : join [NL] (split_nl s) = s.
Proof.
  induction s as [|c s IH]; simpl; [reflexivity|].
  destruct (N.eqb_spec c NL) as [->|Hc].
  - destruct (split_nl s) as [|l ls] eqn:E;
      [now apply split_nl_nonempty in E|].
    rewrite <- IH. reflexivity.
  - destruct (split_nl s) as [|l ls] eqn:E;
      [now apply split_nl_nonempty in E|].
    rewrite <- IH. destruct ls; reflexivity.
Qed.

Lemma split_nl_lines (s : str) :
  Forall (fun l => ~ In NL l) (split_nl s).
Proof.
  induction s as [|c s IH]; simpl.
  - constructor; [intros [] | constructor].
  - destruct (N.eqb_spec c NL) as [->|Hc].
    + constructor; [intros [] | exact IH].
    + destruct (split_nl s) as [|l ls]; [repeat constructor; intros [H|[]]; auto|].
      inversion IH as [|? ? Hl Hls]; subst. constructor; [|exact Hls].
      intros [H|H]; [now apply Hc | now apply Hl].
Qed.

Lemma message_split (message : str) :
  CreateCommit.messageLines message
  = CreateCommit.subject message :: tl (CreateCommit.messageLines message).
Proof.
  unfold CreateCommit.subject, CreateCommit.messageLines.
  destruct (split_nl (trim message)) eqn:E; [|reflexivity].
  now apply split_nl_nonempty in E.
Qed.

(** C8, at the message [fix: print $HOME], blank line, [body], which the
    validator accepts: the handler reaches git through one call whose
    single argument is a command line for the shell; the subject and the
    body stand in it between double quotes, and the [$] of the subject is
    still there unescaped, because [escapeQuotes] rewrites double quotes
    and nothing else. *)
Theorem create_commit_shell_metacharacters_reach_shell :
  isValid (validateConventionalCommitHeader SHELL_MESSAGE) = true
  /\ CreateCommit.subject SHELL_MESSAGE = lit "fix: print $HOME"
  /\ CreateCommit.body SHELL_MESSAGE = [NL] ++ lit "body"
  /\ CreateCommit.escapeQuotes (CreateCommit.subject SHELL_MESSAGE)
     = CreateCommit.subject SHELL_MESSAGE
  /\ CreateCommit.execute (sample_host [] [] []) SHELL_MESSAGE false true
                          sample_state []
     = (Return (success (lit "Successfully created commit:" ++ [NL; NL])),
        sample_state,
        [ Exec (lit "git commit -m " ++ [DQUOTE] ++ lit "fix: print $HOME"
                ++ [DQUOTE] ++ lit " -m " ++ [DQUOTE] ++ [NL] ++ lit "body"
                ++ [DQUOTE])
               REPO ]).
Proof. repeat split; vm_compute; reflexivity. Qed.

(** The calls of a create-commit that passes the gate and the validation:
    after the optional [git add -A], one [git commit] call whose command
    line is built from the first line of the trimmed message and, when
    there are more lines, from the remaining lines joined with newlines. *)
Lemma create_commit_command_line
        (w : host) (message : str) (addAll validate : bool)
        (st : StateService) (log : list call) :
  initialized st = true ->
  (validate = true ->
   isValid (validateConventionalCommitHeader message) = true) ->
  (addAll = true ->
   exists o, exec w log (lit "git add -A") (narrowed (_projectPath st))
             = inr o) ->
  (exists result,
     CreateCommit.execute w message addAll validate st log
     = (Return result, st,
        (log ++ (if addAll
                 then [Exec (lit "git add -A") (narrowed (_projectPath st))]
                 else []))
        ++ [Exec (CreateCommit.commitCommand message)
                 (narrowed (_projectPath st))]))
  /\ CreateCommit.commitCommand message
     = lit "git commit -m " ++ [DQUOTE]
       ++ CreateCommit.escapeQuotes (CreateCommit.subject message)
       ++ [DQUOTE]
       ++ (if truthy (CreateCommit.body message)
           then lit " -m " ++ [DQUOTE]
                ++ CreateCommit.escapeQuotes (CreateCommit.body message)
                ++ [DQUOTE]
           else [])
  /\ split_nl (trim message)
     = CreateCommit.subject message :: tl (split_nl (trim message))
  /\ ~ In NL (CreateCommit.subject message)
  /\ CreateCommit.body message = join [NL] (tl (split_nl (trim message)))
  /\ trim message
     = join [NL] (CreateCommit.subject message
                  :: tl (split_nl (trim message))).
Proof.
  intros Hi Hv Ha. split; [|split; [|split; [|split; [|split]]]].
  - unfold CreateCommit.execute, bind, get_state. cbv zeta.
    rewrite (gate_open st Hi).
    assert ((if validate
             then if negb (isValid (validateConventionalCommitHeader message))
                  then Some (CreateCommit.validation_failed
                               (validateConventionalCommitHeader message)
                               message)
                  else None
             else None) = None) as ->.
    { destruct validate; [|reflexivity]. now rewrite (Hv eq_refl). }
    unfold try_catch, bind, execPromise, ret.
    destruct addAll.
    + destruct (Ha eq_refl) as (o & ->). cbn [of_sum].
      destruct (exec w _ (CreateCommit.commitCommand message) _);
        cbn [of_sum]; eexists; reflexivity.
    + rewrite app_nil_r.
      destruct (exec w _ (CreateCommit.commitCommand message) _);
        cbn [of_sum]; eexists; reflexivity.
  - unfold CreateCommit.commitCommand.
    destruct (truthy (CreateCommit.body message));
      rewrite <- ?app_assoc, ?app_nil_r; reflexivity.
  - apply message_split.
  - pose proof (split_nl_lines (trim message)) as Hl.
    fold (CreateCommit.messageLines message) in Hl.
    rewrite message_split in Hl. now inversion Hl.
  - reflexivity.
  - fold (CreateCommit.messageLines message).
    rewrite <- message_split. apply eq_sym, join_split_nl.
Qed.

Lemma create_commit_command_line_witness :
  CreateCommit.commitCommand (lit "feat: add parser")
  = lit "git commit -m " ++ [DQUOTE]
    ++ CreateCommit.escapeQuotes (CreateCommit.subject (lit "feat: add parser"))
    ++ [DQUOTE]
    ++ (if truthy (CreateCommit.body (lit "feat: add parser"))
        then lit " -m " ++ [DQUOTE]
             ++ CreateCommit.escapeQuotes
                  (CreateCommit.body (lit "feat: add parser"))
             ++ [DQUOTE]
        else []).
Proof.
  apply (create_commit_command_line
           (sample_host [] [] []) (lit "feat: add parser") true true
           sample_state []).
  - reflexivity.
  - intros _. vm_compute. reflexivity.
  - intros _. exists (quiet []). reflexivity.
Defined.

(* ================================================================== *)
(** * More on the validator *)
(* ================================================================== *)

Lemma trimEnd_cons_nonempty (c : N) (s : str) :
  trimEnd s <> [] -> trimEnd (c :: s) = c :: trimEnd s.
Proof. simpl. destruct (trimEnd s); congruence. Qed.

Lemma trimEnd_idem (s : str) : trimEnd (trimEnd s) = trimEnd s.
Proof.
  induction s as [|c s IH]; [reflexivity|].
  destruct (trimEnd s) as [|x t] eqn:E.
  - simpl. rewrite E. destruct (is_white_space c) eqn:Hc; [reflexivity|].
    simpl. now rewrite Hc.
  - rewrite (trimEnd_cons_nonempty c s) by (rewrite E; discriminate).
    rewrite E. rewrite trimEnd_cons_nonempty by (rewrite IH; discriminate).
    now rewrite IH.
Qed.

Lemma trimStart_stops (s : str) : stops is_white_space (trimStart s).
Proof.
  induction s as [|c s IH]; simpl; [exact I|].
  destruct (is_white_space c) eqn:Hc; [exact IH | exact Hc].
Qed.

Lemma trimStart_of_stops (s : str) :
  stops is_white_space s -> trimStart s = s.
Proof. destruct s as [|c s]; simpl; [reflexivity|]. now intros ->. Qed.

Lemma trimEnd_stops (s : str) :
  stops is_white_space s -> stops is_white_space (trimEnd s).
Proof.
  destruct s as [|c s]; [exact (fun H => H)|]. intros Hc. simpl in Hc.
  now rewrite trimEnd_cons.
Qed.

Lemma trim_idem (s : str) : trim (trim s) = trim s.
Proof.
  unfold trim.
  rewrite (trimStart_of_stops (trimEnd (trimStart s)))
    by apply trimEnd_stops, trimStart_stops.
  apply trimEnd_idem.
Qed.

Lemma In_trimStart (c : N) (s : str) : In c (trimStart s) -> In c s.
Proof.
  induction s as [|x s IH]; simpl; [tauto|].
  destruct (is_white_space x); simpl; tauto.
Qed.

Lemma In_trimEnd (c : N) (s : str) : In c (trimEnd s) -> In c s.
Proof.
  induction s as [|x s IH]; [tauto|]. cbn [trimEnd].
  destruct (trimEnd s) as [|y t].
  - destruct (is_white_space x); simpl; tauto.
  - intros [H|H]; [now left | right; now apply IH].
Qed.

Lemma In_trim (c : N) (s : str) : In c (trim s) -> In c s.
Proof. intros H. now apply In_trimStart, In_trimEnd. Qed.

Lemma split_nl_single (s : str) : ~ In NL s -> split_nl s = [s].
Proof.
  induction s as [|c s IH]; simpl; [reflexivity|]. intros H.
  destruct (N.eqb_spec c NL) as [->|_]; [exfalso; now apply H; left|].
  rewrite IH by tauto. reflexivity.
Qed.

Lemma split_nl_first (line body : str) :
  ~ In NL line -> split_nl (line ++ NL :: body) = line :: split_nl body.
Proof.
  induction line as [|c line IH]; simpl; [reflexivity|]. intros H.
  destruct (N.eqb_spec c NL) as [->|_]; [exfalso; now apply H; left|].
  rewrite IH by tauto. reflexivity.
Qed.

Lemma first_line_no_nl (message : str) : ~ In NL (hd [] (split_nl message)).
Proof.
  pose proof (split_nl_lines message) as H.
  destruct (split_nl message); [intros [] | now inversion H].
Qed.

Lemma header_of_no_nl (message : str) : ~ In NL (header_of message).
Proof.
  intros H. apply In_trim in H. exact (first_line_no_nl message H).
Qed.

Lemma header_of_single (line : str) :
  ~ In NL line -> header_of line = trim line.
Proof. intros H. unfold header_of. now rewrite split_nl_single. Qed.

Lemma header_of_idem (message : str) :
  header_of (header_of message) = header_of message.
Proof.
  rewrite (header_of_single _ (header_of_no_nl message)).
  apply trim_idem.
Qed.

(** The validator looks at the message through its header line only. *)
Lemma validate_by_header (m m' : str) :
  header_of m = header_of m' ->
  validateConventionalCommitHeader m = validateConventionalCommitHeader m'.
Proof.
  intros H. unfold validateConventionalCommitHeader.
  fold (header_of m). fold (header_of m'). now rewrite H.
Qed.

(** X1: what follows the first newline is ignored, and so is the
    whitespace around the first line: a message validates as its trimmed
    first line does. *)
Theorem validate_ignores_body (line body : str) :
  ~ In NL line ->
  validateConventionalCommitHeader (line ++ [NL] ++ body)
  = validateConventionalCommitHeader (trim line).
Proof.
  intros H. apply validate_by_header.
  rewrite <- (header_of_single line H), header_of_idem.
  unfold header_of. cbn [app].
  now rewrite (split_nl_first line body H), (split_nl_single line H).
Qed.

Lemma validate_ignores_body_witness :
  validateConventionalCommitHeader
    (lit "  fix: typo " ++ [NL] ++ lit "BREAKING: anything: at all")
  = validateConventionalCommitHeader (trim (lit "  fix: typo ")).
Proof.
  apply (validate_ignores_body (lit "  fix: typo ")
                               (lit "BREAKING: anything: at all")).
  vm_compute. intuition discriminate.
Defined.

(** X2: the "header cannot be empty" answer is given exactly for the
    messages whose first line is blank (empty or whitespace only). *)
Theorem validate_empty_header_iff (message : str) :
  validateConventionalCommitHeader message = invalid E_EMPTY
  <-> blank (hd [] (split_nl message)) = true.
Proof.
  rewrite <- trim_nil_iff. fold (header_of message). split.
  - intros H. destruct (validate_cases message)
      as [[E _]|[[_ E]|[(h & _ & _ & _ & E)|(h & _ & _ & _ & E)]]];
      [exact E | rewrite E in H; discriminate H ..].
  - intros H. unfold validateConventionalCommitHeader.
    fold (header_of message). now rewrite H.
Qed.

(** X3: the validator has four answers only: valid, empty header, wrong
    format, or a type outside the allowed list; the "Description cannot be
    empty." answer of the source is never given. *)
Theorem validate_answers (message : str) :
  (validateConventionalCommitHeader message = VALID
   \/ validateConventionalCommitHeader message = invalid E_EMPTY
   \/ validateConventionalCommitHeader message = invalid E_FORMAT
   \/ exists t, ~ In t CONVENTIONAL_COMMIT_TYPES
                /\ validateConventionalCommitHeader message
                   = invalid (E_TYPE t))
  /\ validateConventionalCommitHeader message
     <> invalid (lit "Description cannot be empty.").
Proof.
  destruct (validate_cases message)
    as [[_ E]|[[_ E]|[(h & _ & _ & Ht & E)|(h & _ & _ & _ & E)]]];
    rewrite E; split; auto; try discriminate.
  right. right. right. exists (h_type h). split; [|reflexivity].
  intros Hin. apply array_includes_In in Hin. congruence.
Qed.

Lemma word_char_range (c : N) : is_word_char c = true -> 48 <= c <= 122.
Proof.
  unfold is_word_char, in_range.
  rewrite !orb_true_iff, !andb_true_iff, !N.leb_le, N.eqb_eq. lia.
Qed.

Lemma white_space_range (c : N) :
  is_white_space c = true -> c <= 32 \/ 160 <= c.
Proof.
  unfold is_white_space, in_range.
  rewrite !orb_true_iff, !andb_true_iff, !N.leb_le, !N.eqb_eq. lia.
Qed.

Lemma word_char_not_space (c : N) :
  is_word_char c = true -> is_white_space c = false.
Proof.
  intros H. apply word_char_range in H.
  destruct (is_white_space c) eqn:E; [|reflexivity].
  apply white_space_range in E. lia.
Qed.

Lemma render_stops (sep dchar : N -> bool) (h : header_parts) :
  well_formed sep dchar h = true ->
  stops is_white_space (render h) /\ render h <> [].
Proof.
  unfold well_formed, render. intros H.
  apply andb_true_iff in H as [H _]. apply andb_true_iff in H as [H _].
  apply andb_true_iff in H as [H _].
  destruct (nonempty_all_inv _ _ H) as (c & t & -> & Hc & _).
  split; [now apply word_char_not_space | discriminate].
Qed.

(** X4: a full stop after the header line is tolerated: if a message is
    found valid, so is its header line with a ["."] appended. *)
Theorem validate_trailing_period (message : str) :
  isValid (validateConventionalCommitHeader message) = true ->
  isValid (validateConventionalCommitHeader (header_of message ++ lit "."))
  = true.
Proof.
  intros H. apply validate_valid_iff in H as (h & Hwf & Hr & Ht).
  apply validate_valid_iff.
  exists {| h_type := h_type h; h_scope := h_scope h;
            h_breaking := h_breaking h; h_sep := h_sep h;
            h_description := h_description h ++ lit "." |}.
  split; [|split; [|exact Ht]].
  - unfold well_formed in *. cbn [h_type h_scope h_sep h_description].
    apply andb_true_iff in Hwf as [Hwf Hd]. rewrite Hwf.
    unfold nonempty_all in *. apply andb_true_iff in Hd as [Hd1 Hd2].
    rewrite forallb_app, Hd2.
    destruct (h_description h); [discriminate Hd1 | reflexivity].
  - destruct (render_stops _ _ h Hwf) as [Hs Hn].
    assert (Hnl : ~ In NL (header_of message ++ lit ".")).
    { intros Hin. apply in_app_or in Hin as [Hin|[Hin|[]]];
        [exact (header_of_no_nl message Hin) | discriminate Hin]. }
    rewrite (header_of_single _ Hnl), Hr.
    rewrite trim_header_app by (auto; reflexivity).
    unfold render. cbn [h_type h_scope h_breaking h_sep h_description].
    now rewrite <- !app_assoc.
Qed.

Lemma validate_trailing_period_witness :
  isValid (validateConventionalCommitHeader
             (header_of (lit " docs: fix typo ") ++ lit ".")) = true.
Proof.
  apply (validate_trailing_period (lit " docs: fix typo ")).
  vm_compute. reflexivity.
Defined.

Lemma captures_of_inj (h h' : header_parts) :
  captures_of h = captures_of h' ->
  h_type h = h_type h' /\ h_scope h = h_scope h'
  /\ h_breaking h = h_breaking h' /\ h_description h = h_description h'.
Proof.
  unfold captures_of, bang_captures, scope_captures.
  destruct (h_breaking h), (h_breaking h'), (h_scope h), (h_scope h');
    simpl; intros E; inversion E; subst; auto.
Qed.

(** X5: the header pattern is unambiguous: a header line splits into
    type, scope, breaking marker, separator and description in one way
    only. *)
Theorem header_parts_unique (h h' : header_parts) :
  well_formed is_white_space is_dot_char h = true ->
  well_formed is_white_space is_dot_char h' = true ->
  render h = render h' ->
  h = h'.
Proof.
  intros Hwf Hwf' Hr.
  pose proof (parse_header_render _ _ h Hwf) as Hp.
  pose proof (parse_header_render _ _ h' Hwf') as Hp'.
  rewrite Hr, Hp' in Hp.
  assert (Hc : captures_of h' = captures_of h) by congruence.
  apply captures_of_inj in Hc as (Ht & Hs & Hb & Hd).
  unfold render in Hr. destruct h, h'; cbn [h_type h_scope h_breaking h_sep h_description] in *; subst.
  repeat apply app_inv_head in Hr. injection Hr as ->. reflexivity.
Qed.

Lemma header_parts_unique_witness :
  {| h_type := lit "feat"; h_scope := Some (lit "api"); h_breaking := true;
     h_sep := SPACE; h_description := lit "x: y" |}
  = {| h_type := lit "feat"; h_scope := Some (lit "api"); h_breaking := true;
       h_sep := SPACE; h_description := lit "x: y" |}.
Proof.
  apply header_parts_unique; reflexivity.
Defined.

(* ================================================================== *)
(** * More on the aggregator *)
(* ================================================================== *)


















(** X7: whatever git prints, the returned text has no whitespace at
    either end: trimming it again changes nothing. *)
Theorem render_diff_trimmed (s u t : str) :
  trim (render_diff s u t) = render_diff s u t.
Proof.
  rewrite render_diff_blocks.
  destruct (has_changes s u t); [apply trim_idem | reflexivity].
Qed.

(** X8: [getGitDiff] never throws and never touches the project context,
    and the calls it issues are an initial segment, at least one call
    long, of the three read-only commands run in the directory it was
    given; it stages and commits nothing. *)
Theorem getGitDiff_read_only
        (w : host) (cwd : str) (st : StateService) (log : list call) :
  exists r made,
    getGitDiff w cwd st log = (Return r, st, log ++ made)
    /\ made <> []
    /\ is_prefix made (diff_calls cwd).
Proof.
  destruct (getGitDiff_produces w cwd st log) as (d & made & Hp & Hrun).
  exists (diff_text d), made. split; [exact Hrun|].
  assert (Hfull : diff_calls cwd <> []
                  /\ is_prefix (diff_calls cwd) (diff_calls cwd)).
  { split; [discriminate | exists []; now rewrite app_nil_r]. }
  destruct Hp as [? ? ? _ _ | ? ? ? _ _ | e made Hf]; try exact Hfull.
  destruct Hf; (split; [discriminate|]).
  - now exists [Exec GIT_DIFF cwd; Exec GIT_LS_FILES cwd].
  - now exists [Exec GIT_LS_FILES cwd].
  - exists []. now rewrite app_nil_r.
Qed.

(* ================================================================== *)
(** * Sessions *)
(* ================================================================== *)

Lemma initialize_returns (w : host) (rawPath : str) (st : StateService)
      (log : list call) :
  exists result st' made,
    InitializeProject.execute w rawPath st log
    = (Return result, st', log ++ made)
    /\ (st' = st \/ exists p, st' = initializeProject p true).
Proof.
  unfold InitializeProject.execute, try_catch, bind, resolve, stat,
    checkGitRepo, execPromise, ret, throw, put_state.
  destruct (path_resolve w rawPath) as [e|resolved]; cbn [of_sum].
  { eexists _, _, []. rewrite app_nil_r. split; [reflexivity | now left]. }
  destruct (fs_stat w log resolved) as [e|s]; cbn [of_sum].
  { eexists _, _, _. split; [reflexivity | now left]. }
  destruct (isDirectory s); cbn [negb].
  2:{ eexists _, _, _. split; [reflexivity | now left]. }
  unfold try_catch, bind, execPromise, ret.
  destruct (exec w (log ++ [Stat resolved]) GIT_REV_PARSE resolved);
    cbn [of_sum negb].
  { eexists _, _, _. split; [rewrite <- app_assoc; reflexivity | now left]. }
  eexists _, _, _. split; [rewrite <- app_assoc; reflexivity|].
  right. now exists resolved.
Qed.

Lemma create_commit_returns (w : host) (message : str)
      (addAll validate : bool) (st : StateService) (log : list call) :
  exists result made,
    CreateCommit.execute w message addAll validate st log
    = (Return result, st, log ++ made).
Proof.
  unfold CreateCommit.execute, bind, get_state. cbv zeta.
  destruct (negb (truthy_opt (_projectPath st)) || negb (_isValidGitRepo st)).
  { eexists _, []. now rewrite app_nil_r. }
  destruct (if validate then _ else None).
  { eexists _, []. now rewrite app_nil_r. }
  unfold try_catch, bind, execPromise, ret.
  destruct addAll.
  - destruct (exec w log (lit "git add -A") _); cbn [of_sum].
    + eexists _, _. reflexivity.
    + destruct (exec w _ (CreateCommit.commitCommand message) _);
        cbn [of_sum]; eexists _, _; rewrite <- app_assoc; reflexivity.
  - destruct (exec w log (CreateCommit.commitCommand message) _);
      cbn [of_sum]; eexists _, _; reflexivity.
Qed.

Lemma diff_tools_return (w : host) (scope : option str) (st : StateService)
      (log : list call) :
  (exists result made,
     GetGitDiff.execute w st log = (Return result, st, log ++ made))
  /\ (exists result made,
        GenerateCommitPrompt.execute w scope st log
        = (Return result, st, log ++ made)).
Proof.
  destruct (initialized st) eqn:Hi.
  - destruct (getGitDiff_produces w (narrowed (_projectPath st)) st log)
      as (d & made & Hp & _).
    split; eexists _, made.
    + exact (get_git_diff_reply_correct w st log d made Hi Hp).
    + exact (generate_commit_prompt_reply_correct w scope st log d made
                                                  Hi Hp).
  - apply gate_closed in Hi.
    split; exists NOT_INITIALIZED, []; rewrite app_nil_r;
      [unfold GetGitDiff.execute | unfold GenerateCommitPrompt.execute];
      unfold bind, get_state; cbv zeta; now rewrite Hi.
Qed.

(** X9: a gated operation always answers with an envelope, never with an
    exception, and leaves the project context as it found it; the log of
    calls only grows. *)
Theorem gated_operation_returns
        (w : host) (op : gated_operation) (st : StateService)
        (log : list call) :
  exists result made,
    run_gated w op st log = (Return result, st, log ++ made).
Proof.
  destruct op as [|scope|message addAll validate]; cbn [run_gated].
  - exact (proj1 (diff_tools_return w None st log)).
  - exact (proj2 (diff_tools_return w scope st log)).
  - apply create_commit_returns.
Qed.

Lemma invoke_returns (w : host) (i : invocation) (st : StateService)
      (log : list call) :
  context_well_formed st ->
  exists result st' log',
    invoke w i st log = (Return result, st', log')
    /\ context_well_formed st'.
Proof.
  intros Hst. destruct i as [path|op]; cbn [invoke].
  - destruct (initialize_returns w path st log)
      as (r & st' & made & E & [->|Hp]);
      eexists _, _, _; (split; [exact E|]); [exact Hst | now right].
  - destruct op as [|scope|message addAll validate]; cbn [run_gated].
    + destruct (proj1 (diff_tools_return w None st log)) as (r & made & E).
      eexists _, _, _; split; [exact E | exact Hst].
    + destruct (proj2 (diff_tools_return w scope st log)) as (r & made & E).
      eexists _, _, _; split; [exact E | exact Hst].
    + destruct (create_commit_returns w message addAll validate st log)
        as (r & made & E).
      eexists _, _, _; split; [exact E | exact Hst].
Qed.

Lemma session_invariant (w : host) (invocations : list invocation) :
  forall st log,
    context_well_formed st ->
    Forall returned (fst (fst (session w invocations st log)))
    /\ context_well_formed (snd (fst (session w invocations st log))).
Proof.
  induction invocations as [|i rest IH]; intros st log Hst; cbn [session].
  - split; [constructor | exact Hst].
  - destruct (invoke_returns w i st log Hst) as (r & st1 & log1 & E & H1).
    rewrite E. specialize (IH st1 log1 H1).
    destruct (session w rest st1 log1) as [[os st2] log2]. cbn [fst snd] in *.
    destruct IH as [IHo IHs]. split; [|exact IHs].
    constructor; [now exists r | exact IHo].
Qed.

(** X10: in a session started on the empty context, whatever tools are
    invoked and whatever the file system and git answer, every invocation
    returns an envelope, and the context is at all times either empty or
    a path with the validated flag set: the flag is never set without a
    path, nor a path stored without the flag. *)
Theorem session_context_well_formed
        (w : host) (invocations : list invocation) :
  Forall returned (fst (fst (session w invocations initial_state [])))
  /\ context_well_formed
       (snd (fst (session w invocations initial_state []))).
Proof. apply session_invariant. now left. Qed.

Lemma initialize_fails (w : host) (rawPath : str) (st : StateService)
      (log : list call) :
  (forall resolved, ~ checks_pass w log rawPath resolved) ->
  exists result made,
    InitializeProject.execute w rawPath st log
    = (Return result, st, log ++ made)
    /\ isError result = true.
Proof.
  intros Hno.
  unfold InitializeProject.execute, try_catch, bind, resolve, stat,
    checkGitRepo, execPromise, ret, throw, put_state.
  destruct (path_resolve w rawPath) as [e|resolved] eqn:Hres; cbn [of_sum].
  { eexists _, []. rewrite app_nil_r. split; reflexivity. }
  destruct (fs_stat w log resolved) as [e|s] eqn:Hstat; cbn [of_sum].
  { eexists _, _. split; reflexivity. }
  destruct (isDirectory s) eqn:Hdir; cbn [negb].
  2:{ eexists _, _. split; reflexivity. }
  unfold try_catch, bind, execPromise, ret.
  destruct (exec w (log ++ [Stat resolved]) GIT_REV_PARSE resolved)
    as [e|o] eqn:Hgit; cbn [of_sum negb].
  { eexists _, _. split; [rewrite <- app_assoc; reflexivity | reflexivity]. }
  exfalso. apply (Hno resolved). repeat split; eauto.
Qed.

(** X11: as long as no initialize-project invocation passes its checks,
    the session stays on the empty context: every gated operation gets
    the NotInitialized envelope and every initialize-project an error
    envelope. *)
Theorem session_without_successful_initialization
        (w : host) (invocations : list invocation) :
  (forall log rawPath resolved, ~ checks_pass w log rawPath resolved) ->
  forall log,
    Forall2 (fun i o =>
               match i with
               | gated _ => o = Return NOT_INITIALIZED
               | initialize_project _ =>
                   exists result, o = Return result /\ isError result = true
               end)
            invocations (fst (fst (session w invocations initial_state log)))
    /\ snd (fst (session w invocations initial_state log)) = initial_state.
Proof.
  intros Hno. induction invocations as [|i rest IH]; intros log;
    cbn [session].
  - split; [constructor | reflexivity].
  - destruct i as [path|op]; cbn [invoke].
    + destruct (initialize_fails w path initial_state log (Hno log path))
        as (r & made & E & Hr).
      rewrite E. specialize (IH (log ++ made)).
      destruct (session w rest initial_state (log ++ made)) as [[os st2] log2].
      cbn [fst snd] in *. destruct IH as [IHo IHs]. split; [|exact IHs].
      constructor; [now exists r | exact IHo].
    + assert (E : run_gated w op initial_state log
                  = (Return NOT_INITIALIZED, initial_state, log)).
      { destruct op; reflexivity. }
      rewrite E. specialize (IH log).
      destruct (session w rest initial_state log) as [[os st2] log2].
      cbn [fst snd] in *. destruct IH as [IHo IHs]. split; [|exact IHs].
      constructor; [reflexivity | exact IHo].
Qed.

Lemma broken_host_never_passes (msg : str) (log : list call)
      (rawPath resolved : str) :
  ~ checks_pass (broken_host msg) log rawPath resolved.
Proof. intros (_ & _ & (o & Ho)). discriminate Ho. Qed.

Lemma session_without_successful_initialization_witness :
  snd (fst (session (broken_host (lit "git: not found"))
                    [ initialize_project (lit "/tmp"); gated get_git_diff ]
                    initial_state []))
  = initial_state.
Proof.
  apply (session_without_successful_initialization
           (broken_host (lit "git: not found"))
           [ initialize_project (lit "/tmp"); gated get_git_diff ]
           (broken_host_never_passes (lit "git: not found")) []).
Defined.

(* ================================================================== *)
(** * More on initialize-project *)
(* ================================================================== *)

(** X12: when the resolved path cannot be confirmed as a directory, git
    is never asked: the only call is the [stat], the context is untouched
    and the text tells the cases apart. A missing path reads "does not
    exist"; a path that exists but is a file reads "Error accessing path
    ...: The path ... is not a directory.", the wording of the error the
    handler has thrown to itself. *)
Theorem initialize_not_a_directory
        (w : host) (rawPath resolved : str) (st : StateService)
        (log : list call) :
  path_resolve w rawPath = inr resolved ->
  (forall e, fs_stat w log resolved = inl e ->
             code e = Some (lit "ENOENT") ->
             InitializeProject.execute w rawPath st log
             = (Return (failure (lit "Error: The path "
                                 ++ InitializeProject.quoted resolved
                                 ++ lit " does not exist.")),
                st, log ++ [Stat resolved]))
  /\ (forall s, fs_stat w log resolved = inr s ->
                isDirectory s = false ->
                InitializeProject.execute w rawPath st log
                = (Return (failure (lit "Error: Error accessing path "
                                    ++ InitializeProject.quoted resolved
                                    ++ lit ": The path "
                                    ++ InitializeProject.quoted resolved
                                    ++ lit " is not a directory.")),
                   st, log ++ [Stat resolved])).
Proof.
  intros Hres. split.
  - intros e He Hc.
    unfold InitializeProject.execute, try_catch, bind, resolve, stat, ret.
    rewrite Hres. cbn [of_sum]. rewrite He. cbn [of_sum]. rewrite Hc.
    reflexivity.
  - intros s Hs Hd.
    unfold InitializeProject.execute, try_catch, bind, resolve, stat, ret,
      throw.
    rewrite Hres. cbn [of_sum]. rewrite Hs. cbn [of_sum]. rewrite Hd.
    cbn [negb new_Error code message]. reflexivity.
Qed.

Lemma initialize_not_a_directory_witness :
  InitializeProject.execute file_host (lit "/etc/hosts") initial_state []
  = (Return (failure (lit "Error: Error accessing path "
                      ++ InitializeProject.quoted (lit "/etc/hosts")
                      ++ lit ": The path "
                      ++ InitializeProject.quoted (lit "/etc/hosts")
                      ++ lit " is not a directory.")),
     initial_state, [] ++ [Stat (lit "/etc/hosts")]).
Proof.
  exact (proj2 (initialize_not_a_directory file_host (lit "/etc/hosts")
                  (lit "/etc/hosts") initial_state [] eq_refl)
               {| isDirectory := false |} eq_refl eq_refl).
Defined.

(** X13: once initialize-project has confirmed a (non-empty) path, the
    gate is open and get-git-diff runs the aggregator in that directory:
    its reply is the one for the variant produced there. *)
Theorem initialize_then_get_git_diff
        (w : host) (rawPath resolved : str) (st : StateService)
        (log : list call) :
  checks_pass w log rawPath resolved ->
  truthy resolved = true ->
  let st1 := initializeProject resolved true in
  let log1 := log ++ [Stat resolved; Exec GIT_REV_PARSE resolved] in
  InitializeProject.execute w rawPath st log
  = (Return (success (lit "Successfully initialized git project at: "
                      ++ resolved)), st1, log1)
  /\ initialized st1 = true
  /\ forall d made,
       produces w log1 resolved d made ->
       GetGitDiff.execute w st1 log1
       = (Return (get_git_diff_reply d), st1, log1 ++ made).
Proof.
  intros (Hres & (s & Hs & Hd) & (o & Ho)) Ht. cbv zeta. split; [|split].
  - unfold InitializeProject.execute, try_catch, bind, resolve, stat,
      checkGitRepo, execPromise, ret, throw, put_state.
    rewrite Hres. cbn [of_sum]. rewrite Hs. cbn [of_sum]. rewrite Hd.
    cbn [negb]. unfold try_catch, bind, execPromise, ret.
    rewrite Ho. cbn [of_sum negb]. now rewrite <- app_assoc.
  - unfold initialized. cbn. now rewrite Ht.
  - intros d made Hp. apply get_git_diff_reply_correct.
    + unfold initialized. cbn. now rewrite Ht.
    + exact Hp.
Qed.

Lemma initialize_then_get_git_diff_witness :
  initialized (initializeProject REPO true) = true.
Proof.
  apply (initialize_then_get_git_diff (sample_host [] [] []) REPO REPO
                                      initial_state []).
  - repeat split; eexists; try split; reflexivity.
  - reflexivity.
Defined.

(* ================================================================== *)
(** * More on create-commit *)
(* ================================================================== *)

Lemma validation_passes (validate : bool) (message : str) :
  (validate = true ->
   isValid (validateConventionalCommitHeader message) = true) ->
  (if validate
   then if negb (isValid (validateConventionalCommitHeader message))
        then Some (CreateCommit.validation_failed
                     (validateConventionalCommitHeader message) message)
        else None
   else None) = None.
Proof. intros H. destruct validate; [|reflexivity]. now rewrite (H eq_refl). Qed.

(** X14: staging comes first and must succeed: when [git add -A] is
    rejected, the handler reports that error and never runs
    [git commit]. *)
Theorem create_commit_add_fails
        (w : host) (message : str) (validate : bool) (st : StateService)
        (log : list call) (e : js_error) :
  initialized st = true ->
  (validate = true ->
   isValid (validateConventionalCommitHeader message) = true) ->
  exec w log GIT_ADD_ALL (narrowed (_projectPath st)) = inl e ->
  CreateCommit.execute w message true validate st log
  = (Return (CreateCommit.commit_error true e), st,
     log ++ [Exec GIT_ADD_ALL (narrowed (_projectPath st))])
  /\ isError (CreateCommit.commit_error true e) = true.
Proof.
  intros Hi Hv He. split; [|reflexivity].
  unfold CreateCommit.execute, bind, get_state. cbv zeta.
  rewrite (gate_open st Hi), (validation_passes validate message Hv).
  unfold try_catch, bind, execPromise, ret.
  fold GIT_ADD_ALL. rewrite He. reflexivity.
Qed.

Lemma create_commit_add_fails_witness :
  CreateCommit.execute locked_host (lit "feat: x") true true sample_state []
  = (Return (failure (lit "Error creating commit: index.lock exists")),
     sample_state, [Exec GIT_ADD_ALL REPO]).
Proof.
  apply (create_commit_add_fails locked_host (lit "feat: x") true
                                 sample_state []
                                 (new_Error (lit "index.lock exists")));
    reflexivity.
Defined.

Lemma create_commit_rejected
      (w : host) (message : str) (addAll validate : bool)
      (st : StateService) (log : list call) (e : js_error) :
  initialized st = true ->
  (validate = true ->
   isValid (validateConventionalCommitHeader message) = true) ->
  (addAll = true ->
   exists o, exec w log GIT_ADD_ALL (narrowed (_projectPath st)) = inr o) ->
  exec w (log ++ (if addAll
                  then [Exec GIT_ADD_ALL (narrowed (_projectPath st))]
                  else []))
       (CreateCommit.commitCommand message) (narrowed (_projectPath st))
  = inl e ->
  exists log',
    CreateCommit.execute w message addAll validate st log
    = (Return (CreateCommit.commit_error addAll e), st, log').
Proof.
  intros Hi Hv Ha He.
  unfold CreateCommit.execute, bind, get_state. cbv zeta.
  rewrite (gate_open st Hi), (validation_passes validate message Hv).
  unfold try_catch, bind, execPromise, ret. fold GIT_ADD_ALL.
  destruct addAll.
  - destruct (Ha eq_refl) as (o & ->). cbn [of_sum]. rewrite He.
    eexists. reflexivity.
  - rewrite app_nil_r in He. rewrite He. eexists. reflexivity.
Qed.

Lemma includes_unfold (needle s : str) :
  includes needle s
  = startsWith needle s
    || match s with [] => false | _ :: s' => includes needle s' end.
Proof. destruct s; reflexivity. Qed.

Lemma startsWith_app (needle post : str) :
  startsWith needle (needle ++ post) = true.
Proof.
  induction needle as [|c n IH]; simpl; [reflexivity|].
  now rewrite N.eqb_refl.
Qed.

(** [includes] finds a phrase wherever it stands. *)
Lemma includes_app (needle pre post : str) :
  includes needle (pre ++ needle ++ post) = true.
Proof.
  induction pre as [|c pre IH].
  - simpl app. rewrite includes_unfold, startsWith_app. reflexivity.
  - change (includes needle ((c :: pre) ++ needle ++ post))
      with (startsWith needle (c :: pre ++ needle ++ post)
            || includes needle (pre ++ needle ++ post)).
    rewrite IH. apply orb_true_r.
Qed.

(** X15: when [git commit] is rejected and its error output mentions
    "nothing to commit" anywhere, the reply is the "No changes were
    staged" text, whatever else the output says and whether or not
    [addAll] was set. *)
Theorem create_commit_nothing_staged
        (w : host) (message : str) (addAll validate : bool)
        (st : StateService) (log : list call) (e : js_error)
        (pre post : str) :
  initialized st = true ->
  (validate = true ->
   isValid (validateConventionalCommitHeader message) = true) ->
  (addAll = true ->
   exists o, exec w log GIT_ADD_ALL (narrowed (_projectPath st)) = inr o) ->
  exec w (log ++ (if addAll
                  then [Exec GIT_ADD_ALL (narrowed (_projectPath st))]
                  else []))
       (CreateCommit.commitCommand message) (narrowed (_projectPath st))
  = inl e ->
  stderr_of e = Some (pre ++ lit "nothing to commit" ++ post) ->
  exists log',
    CreateCommit.execute w message addAll validate st log
    = (Return (failure E_NOTHING_STAGED), st, log').
Proof.
  intros Hi Hv Ha He Hs.
  destruct (create_commit_rejected w message addAll validate st log e
              Hi Hv Ha He) as (log' & E).
  exists log'. rewrite E. do 2 f_equal.
  unfold CreateCommit.commit_error. rewrite Hs. cbn [truthy_opt narrowed].
  rewrite includes_app.
  destruct (pre ++ lit "nothing to commit" ++ post) eqn:Hn; [|reflexivity].
  apply app_eq_nil in Hn as [_ Hn]. discriminate Hn.
Qed.

Lemma create_commit_nothing_staged_witness :
  exists log',
    CreateCommit.execute
      (rejecting_host (lit "On branch main" ++ [NL]
                       ++ lit "nothing to commit, working tree clean"))
      (lit "feat: x") true true sample_state []
    = (Return (failure E_NOTHING_STAGED), sample_state, log').
Proof.
  apply (create_commit_nothing_staged
           (rejecting_host (lit "On branch main" ++ [NL]
                            ++ lit "nothing to commit, working tree clean"))
           (lit "feat: x") true true sample_state []
           {| instanceof_Error := true; message := lit "Command failed";
              code := None;
              stderr_of := Some (lit "On branch main" ++ [NL]
                                 ++ lit "nothing to commit, working tree clean");
              to_String := lit "Error: Command failed" |}
           (lit "On branch main" ++ [NL]) (lit ", working tree clean")).
  - reflexivity.
  - reflexivity.
  - intros _. eexists. reflexivity.
  - reflexivity.
  - reflexivity.
Defined.

(** X16: when [git commit] is rejected and its error output mentions
    "changes not staged for commit" but neither "nothing to commit" nor
    "Please tell me who you are", the reply depends on [addAll]: without
    it, the "There are unstaged changes" text; with it, the generic text
    with the trimmed error output as details. *)
Theorem create_commit_unstaged
        (w : host) (msg : str) (addAll validate : bool)
        (st : StateService) (log : list call) (e : js_error)
        (pre post : str) :
  initialized st = true ->
  (validate = true ->
   isValid (validateConventionalCommitHeader msg) = true) ->
  (addAll = true ->
   exists o, exec w log GIT_ADD_ALL (narrowed (_projectPath st)) = inr o) ->
  exec w (log ++ (if addAll
                  then [Exec GIT_ADD_ALL (narrowed (_projectPath st))]
                  else []))
       (CreateCommit.commitCommand msg) (narrowed (_projectPath st))
  = inl e ->
  stderr_of e = Some (pre ++ lit "changes not staged for commit" ++ post) ->
  includes (lit "nothing to commit")
           (pre ++ lit "changes not staged for commit" ++ post) = false ->
  includes (lit "Please tell me who you are")
           (pre ++ lit "changes not staged for commit" ++ post) = false ->
  exists log',
    CreateCommit.execute w msg addAll validate st log
    = (Return (failure
                 (if addAll
                  then lit "Error creating commit: " ++ message e ++ [NL]
                       ++ lit "Details: "
                       ++ trim (pre ++ lit "changes not staged for commit"
                                ++ post)
                  else E_UNSTAGED)),
       st, log').
Proof.
  intros Hi Hv Ha He Hs Hn Hp.
  destruct (create_commit_rejected w msg addAll validate st log e
              Hi Hv Ha He) as (log' & E).
  exists log'. rewrite E. do 2 f_equal.
  unfold CreateCommit.commit_error. rewrite Hs. cbn [truthy_opt narrowed].
  rewrite Hn, Hp, includes_app.
  destruct (pre ++ lit "changes not staged for commit" ++ post) eqn:Hx.
  { apply app_eq_nil in Hx as [_ Hx]. discriminate Hx. }
  cbn [truthy]. destruct addAll; cbn [negb andb];
    [now rewrite <- !app_assoc | reflexivity].
Qed.

Lemma create_commit_unstaged_witness :
  exists log',
    CreateCommit.execute
      (rejecting_host (lit "error: changes not staged for commit"))
      (lit "feat: x") false true sample_state []
    = (Return (failure E_UNSTAGED), sample_state, log').
Proof.
  apply (create_commit_unstaged
           (rejecting_host (lit "error: changes not staged for commit"))
           (lit "feat: x") false true sample_state []
           {| instanceof_Error := true; message := lit "Command failed";
              code := None;
              stderr_of := Some (lit "error: changes not staged for commit");
              to_String := lit "Error: Command failed" |}
           (lit "error: ") []).
  - reflexivity.
  - reflexivity.
  - discriminate.
  - reflexivity.
  - reflexivity.
  - reflexivity.
  - reflexivity.
Defined.

Lemma escapeQuotes_cons (c : N) (s : str) :
  CreateCommit.escapeQuotes (c :: s)
  = (if c =? DQUOTE then [BACKSLASH; DQUOTE] else [c])
    ++ CreateCommit.escapeQuotes s.
Proof. reflexivity. Qed.

Lemma escapeQuotes_head (s : str) (rest : str) :
  CreateCommit.escapeQuotes s <> DQUOTE :: rest.
Proof.
  destruct s as [|c s]; [discriminate|]. rewrite escapeQuotes_cons.
  destruct (N.eqb_spec c DQUOTE) as [->|Hc]; simpl; [discriminate|].
  intros [= E _]. now apply Hc.
Qed.

(** X17: in an escaped text every double quote stands right after a
    backslash, and a text without double quotes is left as it is. *)
Theorem escapeQuotes_quotes (s : str) :
  (forall pre post,
     CreateCommit.escapeQuotes s = pre ++ DQUOTE :: post ->
     exists pre', pre = pre' ++ [BACKSLASH])
  /\ (~ In DQUOTE s -> CreateCommit.escapeQuotes s = s).
Proof.
  split.
  - induction s as [|c s IH]; intros pre post E.
    + destruct pre; discriminate E.
    + rewrite escapeQuotes_cons in E.
      destruct (N.eqb_spec c DQUOTE) as [->|Hc]; simpl in E.
      * destruct pre as [|x [|y pre]]; simpl in E.
        -- discriminate E.
        -- injection E as Hx _. exists []. simpl. congruence.
        -- injection E as _ _ E.
           destruct (IH _ _ E) as (pre' & Hp).
           exists (x :: y :: pre'). simpl. now rewrite Hp.
      * destruct pre as [|x pre]; simpl in E.
        -- injection E as Hx _. contradiction.
        -- injection E as _ E.
           destruct (IH _ _ E) as (pre' & Hp).
           exists (x :: pre'). simpl. now rewrite Hp.
  - induction s as [|c s IH]; intros H; [reflexivity|].
    rewrite escapeQuotes_cons.
    destruct (N.eqb_spec c DQUOTE) as [->|Hc];
      [exfalso; apply H; now left|].
    simpl. rewrite IH; [reflexivity|]. intros Hin. apply H. now right.
Qed.

Lemma escapeQuotes_quotes_witness :
  CreateCommit.escapeQuotes (lit "fix: typo") = lit "fix: typo".
Proof.
  apply (proj2 (escapeQuotes_quotes (lit "fix: typo"))).
  vm_compute. intuition discriminate.
Defined.

(** X18: escaping loses nothing: two texts with the same escaped form are
    the same text. *)
Theorem escapeQuotes_injective (a b : str) :
  CreateCommit.escapeQuotes a = CreateCommit.escapeQuotes b -> a = b.
Proof.
  revert b. induction a as [|x a IH]; intros [|y b] E.
  - reflexivity.
  - rewrite escapeQuotes_cons in E.
    destruct (y =? DQUOTE); discriminate E.
  - rewrite escapeQuotes_cons in E.
    destruct (x =? DQUOTE); discriminate E.
  - rewrite !escapeQuotes_cons in E.
    destruct (N.eqb_spec x DQUOTE) as [->|Hx],
             (N.eqb_spec y DQUOTE) as [->|Hy]; simpl in E.
    + injection E as E. f_equal. now apply IH.
    + injection E as <- E. symmetry in E.
      now apply escapeQuotes_head in E.
    + injection E as -> E. now apply escapeQuotes_head in E.
    + injection E as -> E. f_equal. now apply IH.
Qed.

Lemma escapeQuotes_injective_witness :
  lit "say " ++ [DQUOTE] = lit "say " ++ [DQUOTE].
Proof.
  apply (escapeQuotes_injective (lit "say " ++ [DQUOTE])
                                (lit "say " ++ [DQUOTE])).
  reflexivity.
Defined.

Lemma trimEnd_last (s x : str) (c : N) :
  trimEnd s = x ++ [c] -> is_white_space c = false.
Proof.
  revert x. induction s as [|a s IH]; intros x E.
  - destruct x; discriminate E.
  - simpl in E. destruct (trimEnd s) as [|y t] eqn:Et.
    + destruct (is_white_space a) eqn:Ha; [destruct x; discriminate E|].
      destruct x as [|x0 [|x1 x]]; try discriminate E.
      now injection E as ->.
    + destruct x as [|x0 x]; [discriminate E|].
      injection E as _ E. exact (IH x E).
Qed.

Lemma join_nl_In (lines : list str) (l : str) (ls : list str) :
  lines = l :: ls -> ls <> [] -> In NL (join [NL] lines).
Proof.
  intros -> H. destruct ls as [|l' ls]; [congruence|].
  cbn [join]. apply in_or_app. right. now left.
Qed.

(** X19: the second [-m] is there exactly when the trimmed message has
    more than one line; a message of one line (once trimmed) is passed
    whole as the subject. *)
Theorem create_commit_body_iff_multiline (message : str) :
  (truthy (CreateCommit.body message) = true <-> In NL (trim message))
  /\ (~ In NL (trim message) ->
      CreateCommit.commitCommand message
      = lit "git commit -m " ++ [DQUOTE]
        ++ CreateCommit.escapeQuotes (trim message) ++ [DQUOTE]).
Proof.
  assert (Hjoin : join [NL] (CreateCommit.messageLines message)
                  = trim message) by apply join_split_nl.
  pose proof (message_split message) as Hsplit.
  assert (Hiff : truthy (CreateCommit.body message) = true
                 <-> In NL (trim message)).
  { unfold CreateCommit.body. rewrite Hsplit in Hjoin.
    destruct (tl (CreateCommit.messageLines message)) as [|l ls] eqn:Etl.
    - split; [discriminate|]. intros Hin. cbn [join] in Hjoin.
      rewrite <- Hjoin in Hin. exfalso.
      pose proof (split_nl_lines (trim message)) as Hl.
      fold (CreateCommit.messageLines message) in Hl.
      rewrite Hsplit in Hl. inversion Hl as [|? ? Hs _]. now apply Hs.
    - split.
      + intros _. rewrite <- Hjoin.
        eapply join_nl_In; [reflexivity | discriminate].
      + intros _. destruct (join [NL] (l :: ls)) eqn:Eb; [|reflexivity].
        exfalso. change (join [NL] (CreateCommit.subject message :: l :: ls))
          with (CreateCommit.subject message ++ [NL] ++ join [NL] (l :: ls))
          in Hjoin.
        rewrite Eb in Hjoin. unfold trim in Hjoin. symmetry in Hjoin.
        apply trimEnd_last in Hjoin. discriminate Hjoin. }
  split; [exact Hiff|].
  intros Hno. unfold CreateCommit.commitCommand.
  destruct (truthy (CreateCommit.body message)) eqn:Eb.
  - exfalso. now apply Hno, Hiff.
  - unfold CreateCommit.subject, CreateCommit.messageLines.
    rewrite (split_nl_single _ Hno). reflexivity.
Qed.

Lemma create_commit_body_iff_multiline_witness :
  CreateCommit.commitCommand (lit " chore: bump " ++ [NL; NL])
  = lit "git commit -m " ++ [DQUOTE]
    ++ CreateCommit.escapeQuotes (trim (lit " chore: bump " ++ [NL; NL]))
    ++ [DQUOTE].
Proof.
  apply (proj2 (create_commit_body_iff_multiline
                  (lit " chore: bump " ++ [NL; NL]))).
  vm_compute. intuition discriminate.
Defined.

(* ================================================================== *)
(** * generate-commit-prompt *)
(* ================================================================== *)

(* An empty scope counts as no scope at all. *)
Example generate_commit_prompt_empty_scope
        (w : host) (st : StateService) (log : list call) :
  GenerateCommitPrompt.execute w (Some []) st log
  = GenerateCommitPrompt.execute w None st log.
Proof. reflexivity. Qed.

(* ================================================================== *)
(** * index.ts *)
(* ================================================================== *)

Lemma blank_split_nl (s : str) : forallb blank (split_nl s) = blank s.
Proof.
  induction s as [|c s IH]; [reflexivity|]. cbn [split_nl].
  destruct (N.eqb_spec c NL) as [->|Hc].
  - cbn [forallb]. rewrite IH. reflexivity.
  - destruct (split_nl s) as [|l ls] eqn:E;
      [now apply split_nl_nonempty in E|].
    cbn [forallb] in *. unfold blank in *. cbn [forallb].
    now rewrite <- IH, andb_assoc.
Qed.

Lemma render_diff_empty_iff (s u t : str) :
  render_diff s u t = NO_CHANGES <-> has_changes s u t = false.
Proof.
  split; [|apply render_diff_empty].
  intros H. destruct (has_changes s u t) eqn:Hc; [|reflexivity].
  apply render_diff_changes, banner_not_other in Hc as [Hc _].
  rewrite H in Hc. discriminate Hc.
Qed.

Lemma legacy_render_diff_empty_iff (s u t : str) :
  Legacy.render_diff s u t = NO_CHANGES <-> has_changes s u t = false.
Proof.
  unfold Legacy.render_diff, has_changes.
  rewrite !truthy_trim, blank_split_nl.
  destruct (blank s), (blank u), (blank t); cbn [negb orb app];
    split; intros H; try reflexivity; try discriminate H.
Qed.

(** X20: the earlier aggregator of index.ts and the one of utils.ts
    agree on when there is nothing to report: one returns the "No changes
    detected" sentinel exactly when the other does. *)
Theorem legacy_aggregator_agrees_on_empty (s u t : str) :
  Legacy.render_diff s u t = NO_CHANGES <-> render_diff s u t = NO_CHANGES.
Proof.
  split; intros H.
  - apply render_diff_empty_iff. now apply legacy_render_diff_empty_iff.
  - apply legacy_render_diff_empty_iff. now apply render_diff_empty_iff.
Qed.

Lemma legacy_getGitDiff_returns (w : host) (cwd : str) (st : StateService)
      (log : list call) :
  exists r made,
    Legacy.getGitDiff w cwd st log = (Return r, st, log ++ made)
    /\ ((exists e made', first_failure w log cwd e made')
        -> r = Legacy.DIFF_ERROR).
Proof.
  unfold Legacy.getGitDiff, try_catch, bind, execPromise, ret.
  destruct (exec w log GIT_DIFF_STAGED cwd) as [e|so] eqn:H1; cbn [of_sum].
  { eexists _, _. split; [reflexivity | reflexivity]. }
  destruct (exec w (log ++ [Exec GIT_DIFF_STAGED cwd]) GIT_DIFF cwd)
    as [e|uo] eqn:H2; cbn [of_sum].
  { eexists _, _. split; [rewrite <- app_assoc; reflexivity | reflexivity]. }
  destruct (exec w ((log ++ [Exec GIT_DIFF_STAGED cwd]) ++ [Exec GIT_DIFF cwd])
                 GIT_LS_FILES cwd) as [e|to] eqn:H3; cbn [of_sum].
  { eexists _, _. split; [rewrite <- !app_assoc; reflexivity | reflexivity]. }
  eexists _, _. split; [rewrite <- !app_assoc; reflexivity|].
  intros (e & made' & Hf). destruct Hf; congruence.
Qed.

(** X21: the earlier get-git-diff of index.ts does not tell a failure
    from a diff: once the gate is open its envelope never carries the
    error flag, and when a git call fails the text is the bare
    ["Error retrieving git diff"], without the cause. *)
Theorem legacy_get_git_diff_never_flags
        (w : host) (st : StateService) (log : list call) :
  initialized st = true ->
  exists r made,
    Legacy.get_git_diff w st log = (Return (success r), st, log ++ made)
    /\ ((exists e made',
           first_failure w log (narrowed (_projectPath st)) e made')
        -> r = Legacy.DIFF_ERROR).
Proof.
  intros Hi. unfold Legacy.get_git_diff, bind, get_state.
  rewrite (gate_open st Hi). unfold try_catch, bind, ret.
  destruct (legacy_getGitDiff_returns w (narrowed (_projectPath st)) st log)
    as (r & made & E & Hf).
  rewrite E. now exists r, made.
Qed.

Lemma legacy_get_git_diff_never_flags_witness :
  exists r made,
    Legacy.get_git_diff (broken_host (lit "spawn git ENOENT")) sample_state []
    = (Return (success r), sample_state, [] ++ made)
    /\ ((exists e made',
           first_failure (broken_host (lit "spawn git ENOENT")) []
                         (narrowed (_projectPath sample_state)) e made')
        -> r = Legacy.DIFF_ERROR).
Proof.
  apply (legacy_get_git_diff_never_flags
           (broken_host (lit "spawn git ENOENT")) sample_state []).
  reflexivity.
Defined.

(** X22: the earlier create-commit of index.ts hands the whole message,
    untrimmed, to one [-m]; for a message of one line that is already
    trimmed it builds the command line the present handler builds. *)
Theorem legacy_commit_command_agrees (message : str) :
  trim message = message ->
  ~ In NL message ->
  Legacy.commitCommand message = CreateCommit.commitCommand message.
Proof.
  intros Ht Hn. unfold Legacy.commitCommand, CreateCommit.commitCommand,
    CreateCommit.body, CreateCommit.subject, CreateCommit.messageLines.
  rewrite Ht, (split_nl_single _ Hn). reflexivity.
Qed.

Lemma legacy_commit_command_agrees_witness :
  Legacy.commitCommand (lit "feat: add parser")
  = CreateCommit.commitCommand (lit "feat: add parser").
Proof.
  apply (legacy_commit_command_agrees (lit "feat: add parser")).
  - reflexivity.
  - vm_compute. intuition discriminate.
Defined.

(* ================================================================== *)
(** * Two more edges of the validator *)
(* ================================================================== *)

Lemma valid_header_parses (message : str) :
  isValid (validateConventionalCommitHeader message) = true ->
  exists caps,
    parse_header is_white_space is_dot_char (header_of message) = Some caps.
Proof.
  intros H. apply validate_valid_iff in H as (h & Hwf & Hr & _).
  exists (captures_of h). rewrite Hr. now apply parse_header_render.
Qed.

(** X23: empty parentheses are not a scope: a header that has [()] right
    after its type is refused, whatever follows. *)
Theorem validate_empty_scope_refused (message ty rest : str) :
  forallb is_word_char ty = true ->
  header_of message = ty ++ lit "()" ++ rest ->
  isValid (validateConventionalCommitHeader message) = false.
Proof.
  intros Hty Hh.
  destruct (isValid (validateConventionalCommitHeader message)) eqn:E;
    [|reflexivity].
  apply valid_header_parses in E as (caps & Hp). rewrite Hh in Hp.
  unfold parse_header in Hp.
  change (lit "()" ++ rest) with (40 :: 41 :: rest) in Hp.
  rewrite take_while_app, drop_while_app in Hp by (auto; reflexivity).
  destruct ty; discriminate Hp.
Qed.

Lemma validate_empty_scope_refused_witness :
  isValid (validateConventionalCommitHeader (lit "feat(): add parser"))
  = false.
Proof.
  apply (validate_empty_scope_refused (lit "feat(): add parser") (lit "feat")
                                      (lit ": add parser")); reflexivity.
Defined.

(** X24: a header of the right shape whose type is not one of the ten
    allowed is refused with a text that quotes that type and lists the
    allowed ones. *)
Theorem validate_unknown_type_text (message : str) (h : header_parts) :
  well_formed is_white_space is_dot_char h = true ->
  header_of message = render h ->
  ~ In (h_type h) CONVENTIONAL_COMMIT_TYPES ->
  validateConventionalCommitHeader message
  = invalid (lit "Invalid type '" ++ h_type h
             ++ lit "'. Must be one of: feat, fix, build, chore, ci, docs, style, refactor, perf, test.").
Proof.
  intros Hwf Hr Ht. rewrite (validate_render message h Hwf Hr).
  destruct (array_includes CONVENTIONAL_COMMIT_TYPES (h_type h)) eqn:E.
  - apply array_includes_In in E. contradiction.
  - reflexivity.
Qed.

Lemma validate_unknown_type_text_witness :
  validateConventionalCommitHeader (lit "Feat(ui): add button")
  = invalid (lit "Invalid type '" ++ lit "Feat"
             ++ lit "'. Must be one of: feat, fix, build, chore, ci, docs, style, refactor, perf, test.").
Proof.
  apply (validate_unknown_type_text
           (lit "Feat(ui): add button")
           {| h_type := lit "Feat"; h_scope := Some (lit "ui");
              h_breaking := false; h_sep := SPACE;
              h_description := lit "add button" |}).
  - reflexivity.
  - reflexivity.
  - vm_compute. intuition discriminate.
Defined.
